(** * ExpressJsFCM: the three route handlers of [src/app.js]

    A shallow embedding of the Express application that maps users to
    FCM registration tokens (a MongoDB collection, through mongoose) and
    fans notifications out through the Firebase Admin SDK.

    - [Store]: the [UserToken] collection and the four mongoose queries
      the handlers issue.
    - [Handlers]: the three routes, written in a small state-and-exception
      monad over a world made of the collection and a log of the calls
      made to the two collaborators (store and gateway).
    - [EventLoop]: the interleavings of the bulk route: a step function
      driven by a schedule that picks which pending promise settles next.
    - [Bootstrap]: the conversion of the private key at start-up. *)

From Stdlib Require Import String List ZArith Bool Arith Lia DecimalString
  Permutation.
Import ListNotations.
Open Scope string_scope.
Open Scope list_scope.
Open Scope nat_scope.

Set Implicit Arguments.

(* ================================================================== *)
(** ** The token store: [userTokenSchema] and the mongoose queries      *)
(* ================================================================== *)

Module Store.

(** One element of [fcmTokens] (app.js 27-33).  [device] is not required
    by the schema; [lastUsed] is a date, kept as milliseconds.  Mongoose
    also gives each sub-document an [_id]; it is left out, which can only
    make two elements equal more often. *)
Record FcmToken := mkFcmToken {
  token : string;
  device : option string;
  lastUsed : Z
}.

(** A document of the collection (app.js 25-34). *)
Record UserToken := mkUserToken {
  userId : string;
  fcmTokens : list FcmToken
}.

(** The collection, in its natural order. *)
Definition Collection := list UserToken.

Definition option_eqb {A} (eqb : A -> A -> bool) (x y : option A) : bool :=
  match x, y with
  | Some a, Some b => eqb a b
  | None, None => true
  | _, _ => false
  end.

(** Equality of array elements as [$addToSet] sees it: the whole
    sub-document, field by field. *)
Definition FcmToken_eqb (a b : FcmToken) : bool :=
  String.eqb (token a) (token b)
  && option_eqb String.eqb (device a) (device b)
  && Z.eqb (lastUsed a) (lastUsed b).

(** [{ $addToSet: { fcmTokens: e } }]: append [e] unless an equal element
    is already in the array. *)
Definition addToSet (e : FcmToken) (arr : list FcmToken) : list FcmToken :=
  if existsb (FcmToken_eqb e) arr then arr else arr ++ [e].

(** [{ $pull: { fcmTokens: { token: t } } }]: drop every element whose
    [token] field is [t]. *)
Definition pull (t : string) (arr : list FcmToken) : list FcmToken :=
  filter (fun r => negb (String.eqb (token r) t)) arr.

(** [UserToken.findOne({ userId })]: the first matching document. *)
Definition findOne (uid : string) (c : Collection) : option UserToken :=
  find (fun d => String.eqb (userId d) uid) c.

(** [UserToken.find({ userId: { $in: userIds } })]: every document whose
    [userId] is one of [userIds], each once, in collection order. *)
Definition find_in (userIds : list string) (c : Collection) : list UserToken :=
  filter (fun d => existsb (String.eqb (userId d)) userIds) c.

(** [UserToken.findOneAndUpdate({ userId }, { $addToSet: ... },
    { upsert: true })] (app.js 53-65): update the first matching document,
    or insert a new one when none matches. *)
Fixpoint findOneAndUpdate_addToSet (uid : string) (e : FcmToken)
    (c : Collection) : Collection :=
  match c with
  | [] => [ mkUserToken uid [e] ]
  | d :: c' =>
      if String.eqb (userId d) uid
      then mkUserToken (userId d) (addToSet e (fcmTokens d)) :: c'
      else d :: findOneAndUpdate_addToSet uid e c'
  end.

(** [UserToken.updateOne({ userId }, { $pull: ... })] (app.js 112): the
    first matching document only; nothing when none matches. *)
Fixpoint updateOne_pull (uid : string) (t : string) (c : Collection)
    : Collection :=
  match c with
  | [] => []
  | d :: c' =>
      if String.eqb (userId d) uid
      then mkUserToken (userId d) (pull t (fcmTokens d)) :: c'
      else d :: updateOne_pull uid t c'
  end.

(** [UserToken.updateMany({}, { $pull: ... })] (app.js 176): every
    document. *)
Definition updateMany_pull (t : string) (c : Collection) : Collection :=
  map (fun d => mkUserToken (userId d) (pull t (fcmTokens d))) c.

(** The tokens stored for a user: empty when there is no document. *)
Definition tokens_of (uid : string) (c : Collection) : list FcmToken :=
  match findOne uid c with
  | Some d => fcmTokens d
  | None => []
  end.

(** The records of a user that carry a given token value. *)
Definition records_for (uid t : string) (c : Collection) : list FcmToken :=
  filter (fun r => String.eqb (token r) t) (tokens_of uid c).

(** An array without the records whose token is one of [removed]. *)
Definition without (removed : list string) (arr : list FcmToken)
    : list FcmToken :=
  filter (fun r => negb (existsb (String.eqb (token r)) removed)) arr.

(** The unique index on [userId] (app.js 26). *)
Definition unique_userIds (c : Collection) : Prop :=
  NoDup (map userId c).

(** Token values are pairwise distinct inside every document. *)
Definition unique_tokens (c : Collection) : Prop :=
  forall d, In d c -> NoDup (map token (fcmTokens d)).

End Store.

(* ================================================================== *)
(** ** The gateway: messages and the outcome of [admin.messaging().send] *)
(* ================================================================== *)

Module Gateway.

Record Notification := mkNotification {
  title : string;
  body : string
}.

(** The object built at app.js 95-102 and 151-160. *)
Record Message := mkMessage {
  notification : Notification;
  data : list (string * string);
  token : string
}.

(** [send] returns a promise: it resolves with a message id, or rejects
    with an error that may carry a [code]. *)
Inductive SendResult :=
| Resolved (messageId : string)
| Rejected (code : option string).

(** The test of app.js 110 and 174 on [error.code]. *)
Definition invalid_token_code (code : option string) : bool :=
  match code with
  | Some c =>
      String.eqb c "messaging/invalid-registration-token"
      || String.eqb c "messaging/registration-token-not-registered"
  | None => false
  end.

(** The three outcomes the specification names. *)
Inductive Outcome := Delivered | TransientFailure | PermanentInvalidToken.

Definition classify (r : SendResult) : Outcome :=
  match r with
  | Resolved _ => Delivered
  | Rejected code =>
      if invalid_token_code code then PermanentInvalidToken
      else TransientFailure
  end.

(** The value a send leaves in the array of responses once its rejection
    is caught (app.js 108 and 114, 172 and 178). *)
Definition response_of (r : SendResult) : option string :=
  match r with
  | Resolved messageId => Some messageId
  | Rejected _ => None
  end.

Definition is_delivered (r : SendResult) : bool :=
  match r with Resolved _ => true | Rejected _ => false end.

Definition is_permanent (r : SendResult) : bool :=
  match r with Resolved _ => false | Rejected code => invalid_token_code code end.

End Gateway.

(* ================================================================== *)
(** ** The route handlers                                               *)
(* ================================================================== *)

Module Handlers.

Import Gateway.

(** A call made to a collaborator, as the handlers issue them. *)
Inductive Call :=
| FindOneAndUpdate (userId : string) (e : Store.FcmToken)
| FindOne (userId : string)
| Find (userIds : list string)
| UpdateOne (userId : string) (tok : string)
| UpdateMany (tok : string)
| Send (m : Message)
| Unhandled (c : Call).
    (* the promise of call [c] rejected and nothing handles the rejection *)

(** What the handlers cannot see in advance: the clock, what the gateway
    answers to the [k]-th message of a request, and which store queries
    fail. *)
Record Env := mkEnv {
  now : Z;
  gateway : nat -> Message -> SendResult;
  register_fails : bool;
  lookup_fails : bool;
  prune_fails : nat -> bool
}.

Record World := mkWorld {
  db : Store.Collection;
  calls : list Call
}.

Inductive Error := StoreUnavailable.

Inductive Result (A : Type) :=
| Ok (a : A)
| Throw (e : Error)
| OutOfFuel.
Arguments Ok {A} a.
Arguments Throw {A} e.
Arguments OutOfFuel {A}.

Definition M (A : Type) : Type := World -> Result A * World.

Definition ret {A} (a : A) : M A := fun w => (Ok a, w).

Definition bind {A B} (m : M A) (k : A -> M B) : M B :=
  fun w =>
    match m w with
    | (Ok a, w') => k a w'
    | (Throw e, w') => (Throw e, w')
    | (OutOfFuel, w') => (OutOfFuel, w')
    end.

Notation "x <- m ;; k" := (bind m (fun x => k))
  (at level 61, m at next level, right associativity).
Notation "m ;;; k" := (bind m (fun _ => k))
  (at level 61, right associativity).

Definition throw {A} (e : Error) : M A := fun w => (Throw e, w).

(** [try { m } catch (error) { h error }]. *)
Definition try_catch {A} (m : M A) (h : Error -> M A) : M A :=
  fun w =>
    match m w with
    | (Throw e, w') => h e w'
    | other => other
    end.

Definition record (c : Call) : M unit :=
  fun w => (Ok tt, mkWorld (db w) (calls w ++ [c])).

Definition read_db : M Store.Collection := fun w => (Ok (db w), w).

Definition write_db (f : Store.Collection -> Store.Collection) : M unit :=
  fun w => (Ok tt, mkWorld (f (db w)) (calls w)).

(** An awaited store query: recorded, then it fails or takes effect. *)
Definition query {A} (c : Call) (fails : bool) (run : M A) : M A :=
  record c ;;; if fails then throw StoreUnavailable else run.

(** A store query whose promise nobody awaits and nobody handles
    ([.exec()] at app.js 176): recorded, it takes effect unless it fails.
    The handler itself goes on either way; a failure is a rejection
    without a handler, recorded as such.  Node's default since version 15
    is to end the process on such a rejection, at whatever moment it is
    delivered ([EventLoop] has the moments): a run whose log holds an
    [Unhandled] entry gives the response the handler writes provided the
    process lives that long, and the collection reached provided every
    write started completes. *)
Definition background (c : Call) (fails : bool) (run : M unit) : M unit :=
  record c ;;; if fails then record (Unhandled c) else run.

(** A pending promise: what happens when the call is made, and what
    happens once it settles. *)
Record Promise (A : Type) := mkPromise {
  issue : M unit;
  settle : M A
}.

Fixpoint issue_all {A} (ps : list (Promise A)) : M unit :=
  match ps with
  | [] => ret tt
  | p :: ps' => issue p ;;; issue_all ps'
  end.

(** Every promise runs to its end whatever the others do; the array of
    values is produced only when none rejected.  The promises are taken
    in array order, one of the orders in which they may settle: the
    values, the collection reached and the set of calls made are the
    same in every order, the place of the removal writes in the log is
    not. *)
Fixpoint settle_all {A} (ps : list (Promise A)) : M (list A) :=
  match ps with
  | [] => ret []
  | p :: ps' =>
      fun w =>
        let (r, w1) := settle p w in
        let (rs, w2) := settle_all ps' w1 in
        (match r, rs with
         | Ok a, Ok l => Ok (a :: l)
         | Ok _, Throw e => Throw e
         | Throw e, _ => Throw e
         | _, _ => OutOfFuel
         end, w2)
  end.

(** [await Promise.all(ps)]: the calls are made in array order when the
    array is built, then the promises settle (here in array order; the
    other orders are those of [EventLoop]). *)
Definition Promise_all {A} (ps : list (Promise A)) : M (list A) :=
  issue_all ps ;;; settle_all ps.

(** The elements of an array paired with their positions from [start]. *)
Definition indexed {A} (start : nat) (l : list A) : list (nat * A) :=
  combine (seq start (List.length l)) l.

(** [arr.slice(s, e)]. *)
Definition slice {A} (l : list A) (s e : nat) : list A :=
  firstn (e - s) (skipn s l).

Definition not_null {A} (x : option A) : bool :=
  match x with Some _ => true | None => false end.

(** [data || {}]. *)
Definition data_or_empty (data : option (list (string * string)))
    : list (string * string) :=
  match data with Some d => d | None => [] end.

Inductive Response :=
| Json200_registered
| Json200_sent (successful : Z) (failed : Z)
| Json404
| Json500 (e : Error).

Definition status (r : Response) : Z :=
  match r with
  | Json200_registered | Json200_sent _ _ => 200%Z
  | Json404 => 404%Z
  | Json500 _ => 500%Z
  end.

(** *** POST /register-token (app.js 48-78) *)

Definition register_token (env : Env) (userId fcmToken : string)
    (deviceInfo : option string) : M Response :=
  try_catch
    (let e := Store.mkFcmToken fcmToken deviceInfo (now env) in
     query (FindOneAndUpdate userId e) (register_fails env)
           (write_db (Store.findOneAndUpdate_addToSet userId e)) ;;;
     ret Json200_registered)
    (fun error => ret (Json500 error)).

(** *** POST /send-notification (app.js 81-133) *)

Definition build_message (title body : string)
    (data : option (list (string * string))) (tokenInfo : Store.FcmToken)
    : Message :=
  mkMessage (mkNotification title body) (data_or_empty data)
            (Store.token tokenInfo).

(** The callback of app.js 106-116 applied to the [k]-th message. *)
Definition send_one (env : Env) (userId : string) (k : nat) (message : Message)
    : Promise (option string) :=
  mkPromise
    (record (Send message))
    (match gateway env k message with
     | Resolved messageId => ret (Some messageId)
     | Rejected code =>
         (if invalid_token_code code
          then query (UpdateOne userId (token message)) (prune_fails env k)
                     (write_db (Store.updateOne_pull userId (token message)))
          else ret tt) ;;;
         ret None
     end).

Definition send_notification (env : Env) (userId title body : string)
    (data : option (list (string * string))) : M Response :=
  try_catch
    (userTokens <- query (FindOne userId) (lookup_fails env)
                     (c <- read_db ;; ret (Store.findOne userId c)) ;;
     match userTokens with
     | None => ret Json404
     | Some d =>
         if List.length (Store.fcmTokens d) =? 0 then ret Json404
         else
           let messages := map (build_message title body data)
                               (Store.fcmTokens d) in
           responses <-
             Promise_all (map (fun km => send_one env userId (fst km) (snd km))
                              (indexed 0 messages)) ;;
           let successfulSends := filter not_null responses in
           ret (Json200_sent
                  (Z.of_nat (List.length successfulSends))
                  (Z.of_nat (List.length messages)
                   - Z.of_nat (List.length successfulSends))%Z)
     end)
    (fun error => ret (Json500 error)).

(** *** POST /send-bulk-notification (app.js 136-199) *)

(** [send(message).catch(...)] of app.js 170-179 for the [k]-th message. *)
Definition send_caught (env : Env) (k : nat) (message : Message)
    : Promise (option string) :=
  mkPromise
    (record (Send message))
    (match gateway env k message with
     | Resolved messageId => ret (Some messageId)
     | Rejected code =>
         (if invalid_token_code code
          then background (UpdateMany (token message)) (prune_fails env k)
                          (write_db (Store.updateMany_pull (token message)))
          else ret tt) ;;;
         ret None
     end).

(** [for (let i = start; i < items.length; i += batchSize)
       { const batch = items.slice(i, i + batchSize); body }]
    threading the variables the body updates.  The loop does not end when
    [batchSize] is 0, hence the fuel. *)
Fixpoint for_batches {A R} (fuel batchSize : nat) (items : list A) (i : nat)
    (body : nat -> list A -> R -> M R) (acc : R) : M R :=
  match fuel with
  | O => fun w => (OutOfFuel, w)
  | S fuel' =>
      if i <? List.length items then
        acc' <- body i (slice items i (i + batchSize)) acc ;;
        for_batches fuel' batchSize items (i + batchSize) body acc'
      else ret acc
  end.

(** The body of the loop, app.js 167-182. *)
Definition send_batch (env : Env) (i : nat) (batch : list Message)
    (results : list (option string)) : M (list (option string)) :=
  batchResponses <-
    Promise_all (map (fun km => send_caught env (fst km) (snd km))
                     (indexed i batch)) ;;
  ret (results ++ batchResponses).

Definition batchSize : nat := 500.

Definition bulk_messages (title body : string)
    (data : option (list (string * string)))
    (userTokens : list Store.UserToken) : list Message :=
  flat_map (fun user => map (build_message title body data)
                            (Store.fcmTokens user))
           userTokens.

(** The handler with the batch size as a parameter. *)
Definition send_bulk_with (size : nat) (env : Env) (userIds : list string)
    (title body : string) (data : option (list (string * string)))
    : M Response :=
  try_catch
    (userTokens <- query (Find userIds) (lookup_fails env)
                     (c <- read_db ;; ret (Store.find_in userIds c)) ;;
     if List.length userTokens =? 0 then ret Json404
     else
       let messages := bulk_messages title body data userTokens in
       results <- for_batches (S (List.length messages)) size messages 0
                              (send_batch env) [] ;;
       let successfulSends := filter not_null results in
       ret (Json200_sent
              (Z.of_nat (List.length successfulSends))
              (Z.of_nat (List.length messages)
               - Z.of_nat (List.length successfulSends))%Z))
    (fun error => ret (Json500 error)).

Definition send_bulk_notification : Env -> list string -> string -> string ->
    option (list (string * string)) -> M Response :=
  send_bulk_with batchSize.

(** The groups the loop slices, collected by a body that does nothing
    else. *)
Definition batches {A} (fuel size : nat) (items : list A) (i : nat)
    : M (list (list A)) :=
  for_batches fuel size items i (fun _ batch acc => ret (acc ++ [batch])) [].

(** The body run on given groups, one after the other, the loop variable
    advancing by [size]. *)
Fixpoint run_batches {A R} (body : nat -> list A -> R -> M R)
    (size i : nat) (groups : list (list A)) (acc : R) : M R :=
  match groups with
  | [] => ret acc
  | g :: gs =>
      acc' <- body i g acc ;;
      run_batches body size (i + size) gs acc'
  end.

(** Number of groups still to come when the loop variable is [i]:
    the items left, divided by the batch size and rounded up. *)
Definition groups_left {A} (size : nat) (items : list A) (i : nat) : nat :=
  (List.length items - i + size - 1) / size.

(** What a run leaves behind: the messages handed to the gateway, the
    tokens for which a removal write was issued, the lookups made. *)
Definition sent_in (cs : list Call) : list Message :=
  flat_map (fun c => match c with Send m => [m] | _ => [] end) cs.

Definition pruned_in (cs : list Call) : list string :=
  flat_map (fun c => match c with
                     | UpdateOne _ t | UpdateMany t => [t]
                     | _ => []
                     end) cs.

Definition lookups_in (cs : list Call) : list Call :=
  filter (fun c => match c with Find _ | FindOne _ => true | _ => false end)
         cs.

(** The rejections nothing handles. *)
Definition unhandled_in (cs : list Call) : list Call :=
  flat_map (fun c => match c with Unhandled c' => [c'] | _ => [] end) cs.

Definition sends (w : World) : list Message := sent_in (calls w).
Definition pruned (w : World) : list string := pruned_in (calls w).
Definition lookups (w : World) : list Call := lookups_in (calls w).
Definition unhandled (w : World) : list Call := unhandled_in (calls w).

Definition fresh (c : Store.Collection) : World := mkWorld c [].

(** *** What a batch of positioned messages amounts to *)

Definition answers (env : Env) (ims : list (nat * Message))
    : list (option string) :=
  map (fun km => response_of (gateway env (fst km) (snd km))) ims.

(** The removal writes a batch triggers, [prune] being the query used. *)
Definition prunes_of (prune : string -> Call) (env : Env)
    (ims : list (nat * Message)) : list Call :=
  flat_map (fun km =>
              if is_permanent (gateway env (fst km) (snd km))
              then [prune (token (snd km))] else [])
           ims.

(** The calls the caught sends of a batch leave in the log once settled:
    a removal write per invalid token, followed by its unhandled
    rejection when it fails. *)
Definition background_prunes_of (env : Env) (ims : list (nat * Message))
    : list Call :=
  flat_map (fun km =>
              if is_permanent (gateway env (fst km) (snd km))
              then UpdateMany (token (snd km))
                   :: (if prune_fails env (fst km)
                       then [Unhandled (UpdateMany (token (snd km)))]
                       else [])
              else [])
           ims.

(** No removal write started for these messages is rejected. *)
Definition prunes_accepted (env : Env) (ims : list (nat * Message)) : Prop :=
  forall k m,
    In (k, m) ims -> is_permanent (gateway env k m) = true ->
    prune_fails env k = false.

(** The tokens of the messages the gateway rejected with one of the two
    codes of [invalid_token_code]. *)
Definition permanent_tokens (env : Env) (ims : list (nat * Message))
    : list string :=
  flat_map (fun km =>
              if is_permanent (gateway env (fst km) (snd km))
              then [token (snd km)] else [])
           ims.

(** A message whose prune is awaited and fails. *)
Definition escalates (env : Env) (km : nat * Message) : bool :=
  is_permanent (gateway env (fst km) (snd km)) && prune_fails env (fst km).

Definition delivered_count (env : Env) (ims : list (nat * Message)) : nat :=
  List.length (filter (fun km => is_delivered (gateway env (fst km) (snd km)))
                      ims).

Definition failed_count (env : Env) (ims : list (nat * Message)) : nat :=
  List.length (filter (fun km =>
                         negb (is_delivered (gateway env (fst km) (snd km))))
                      ims).

(** The same environment with another fate for the prune writes. *)
Definition with_prune_fails (pf : nat -> bool) (env : Env) : Env :=
  mkEnv (now env) (gateway env) (register_fails env) (lookup_fails env) pf.

(** A message whose prune is issued and takes effect. *)
Definition prune_succeeds (env : Env) (km : nat * Message) : bool :=
  is_permanent (gateway env (fst km) (snd km))
  && negb (prune_fails env (fst km)).

(** The collection once the prunes of a batch that did not fail have
    taken effect, in array order, [pull] being the store's removal. *)
Definition apply_prunes (pull : string -> Store.Collection -> Store.Collection)
    (env : Env) (ims : list (nat * Message)) (c : Store.Collection)
    : Store.Collection :=
  fold_left (fun c km => if prune_succeeds env km
                         then pull (token (snd km)) c else c)
            ims c.

(** The tokens those prunes remove. *)
Definition removed_tokens (env : Env) (ims : list (nat * Message))
    : list string :=
  flat_map (fun km => if prune_succeeds env km then [token (snd km)] else [])
           ims.

(** The (user, token) pairs behind the messages of a bulk request. *)
Definition resolved_pairs (userIds : list string) (c : Store.Collection)
    : list (string * string) :=
  flat_map (fun user => map (fun tokenInfo =>
                               (Store.userId user, Store.token tokenInfo))
                            (Store.fcmTokens user))
           (Store.find_in userIds c).

End Handlers.

(* ================================================================== *)
(** ** The bulk loop on the event loop                                  *)
(* ================================================================== *)

(** [Handlers] settles the promises of a batch in array order.  Here the
    order is free: a schedule names, step by step, which pending send
    settles, which background query completes, or that the handler itself
    continues.  A background query that completes by rejecting ends the
    process, its promise having no handler (Node's default since
    version 15).  The state is that of the loop at app.js 164-191. *)
Module EventLoop.

Import Gateway.

(** What is observed, each send and prune tagged with the value of the
    loop variable [i] of its batch and with the position [k] of its
    message. *)
Inductive Event :=
| SendIssued (i k : nat) (m : Message)
| SendSettled (i k : nat) (r : SendResult)
| PruneIssued (i k : nat) (tok : string)
| PruneDone (i k : nat) (tok : string)
| Responded (r : Handlers.Response).

Inductive Phase :=
| AtLoopTest (i : nat)
    (* about to evaluate [i < messages.length] *)
| Awaiting (i : nat) (batch pending : list (nat * Message))
    (* suspended on [await Promise.all(...)]: [pending] sends of [batch]
       have not settled yet *)
| Done
| Crashed.
    (* the process ended on an unhandled rejection *)

Record State := mkState {
  phase : Phase;
  results : list (option string);
  background : list (nat * nat * string);   (* [updateMany] queries in flight *)
  trace : list Event                        (* most recent first *)
}.

Inductive Action :=
| Resume               (* the handler continues *)
| Settle (j : nat)     (* the [j]-th pending send settles; its handler runs *)
| Complete (j : nat).  (* the [j]-th query in flight completes: it resolves,
                          or it rejects and, nothing handling the
                          rejection, the process ends *)

Fixpoint remove_nth {A} (j : nat) (l : list A) : list A :=
  match j, l with
  | _, [] => []
  | O, _ :: l' => l'
  | S j', x :: l' => x :: remove_nth j' l'
  end.

Section Machine.

Variable env : Handlers.Env.
Variable size : nat.
Variable messages : list Message.

Definition issued (i : nat) (batch : list (nat * Message)) : list Event :=
  map (fun km => SendIssued i (fst km) (snd km)) batch.

(** The loop test and what follows it without suspension: either the next
    batch is sliced and all its sends are called (app.js 166-172), or the
    response is written (app.js 185-191). *)
Definition loop_test (i : nat) (s : State) : State :=
  if i <? List.length messages then
    let batch := Handlers.indexed i (Handlers.slice messages i (i + size)) in
    mkState (Awaiting i batch batch) (results s) (background s)
            (rev (issued i batch) ++ trace s)
  else
    let successfulSends := filter Handlers.not_null (results s) in
    let r := Handlers.Json200_sent
               (Z.of_nat (List.length successfulSends))
               (Z.of_nat (List.length messages)
                - Z.of_nat (List.length successfulSends))%Z in
    mkState Done (results s) (background s) (Responded r :: trace s).

Definition step (a : Action) (s : State) : option State :=
  match a, phase s with
  | Resume, AtLoopTest i => Some (loop_test i s)
  | Resume, Awaiting i batch [] =>
      (* [Promise.all] resolved: app.js 182, then [i += batchSize] *)
      let batchResponses :=
        map (fun km => response_of (Handlers.gateway env (fst km) (snd km)))
            batch in
      Some (loop_test (i + size)
              (mkState (phase s) (results s ++ batchResponses)
                       (background s) (trace s)))
  | Settle j, Awaiting i batch pending =>
      match nth_error pending j with
      | Some (k, m) =>
          let r := Handlers.gateway env k m in
          if is_permanent r then
            (* app.js 174-177: the query is started, not awaited *)
            Some (mkState (Awaiting i batch (remove_nth j pending))
                          (results s)
                          (background s ++ [(i, k, token m)])
                          (PruneIssued i k (token m)
                           :: SendSettled i k r :: trace s))
          else
            Some (mkState (Awaiting i batch (remove_nth j pending))
                          (results s) (background s)
                          (SendSettled i k r :: trace s))
      | None => None
      end
  | Complete j, (AtLoopTest _ | Awaiting _ _ _ | Done) =>
      match nth_error (background s) j with
      | Some (i0, k, tok) =>
          (* app.js 176: no [catch] on the promise of [exec()] *)
          Some (mkState (if Handlers.prune_fails env k then Crashed
                         else phase s)
                        (results s)
                        (remove_nth j (background s))
                        (PruneDone i0 k tok :: trace s))
      | None => None
      end
  | _, _ => None
  end.

Fixpoint exec (sched : list Action) (s : State) : option State :=
  match sched with
  | [] => Some s
  | a :: sched' =>
      match step a s with
      | Some s' => exec sched' s'
      | None => None
      end
  end.

(** The loop starts when the lookup has resolved (app.js 162-166). *)
Definition init : State := mkState (AtLoopTest 0) [] [] [].

Definition reachable (s : State) : Prop :=
  exists sched, exec sched init = Some s.

End Machine.

(** *** Orderings of a trace

    The trace is most recent first: in [later ++ e :: earlier] the events
    of [earlier] happened before [e].  An ordering says what must already
    have happened at every event of the trace. *)

Definition every_point (Q : Event -> list Event -> Prop) (tr : list Event)
    : Prop :=
  forall later e earlier, tr = later ++ e :: earlier -> Q e earlier.

(** When a send is called, every send of an earlier batch has settled. *)
Definition earlier_sends_settled (env : Handlers.Env) (e : Event)
    (earlier : list Event) : Prop :=
  match e with
  | SendIssued i2 _ _ =>
      forall i1 k1 m1,
        In (SendIssued i1 k1 m1) earlier -> i1 < i2 ->
        In (SendSettled i1 k1 (Handlers.gateway env k1 m1)) earlier
  | _ => True
  end.

(** When a send is called, every prune an earlier batch triggers has been
    started. *)
Definition earlier_prunes_started (e : Event) (earlier : list Event) : Prop :=
  match e with
  | SendIssued i2 _ _ =>
      forall i1 k1 r,
        In (SendSettled i1 k1 r) earlier -> i1 < i2 ->
        is_permanent r = true ->
        exists tok, In (PruneIssued i1 k1 tok) earlier
  | _ => True
  end.

(** When a send is called, every prune an earlier batch triggers has
    completed. *)
Definition earlier_prunes_completed (e : Event) (earlier : list Event)
    : Prop :=
  match e with
  | SendIssued i2 _ _ =>
      forall i1 k1 tok,
        In (PruneIssued i1 k1 tok) earlier -> i1 < i2 ->
        In (PruneDone i1 k1 tok) earlier
  | _ => True
  end.

(** When a send settles, every send of its batch has been called. *)
Definition batch_fully_called (size : nat) (messages : list Message)
    (e : Event) (earlier : list Event) : Prop :=
  match e with
  | SendSettled i _ _ =>
      forall km,
        In km (Handlers.indexed i (Handlers.slice messages i (i + size))) ->
        In (SendIssued i (fst km) (snd km)) earlier
  | _ => True
  end.

Definition sends_settle_before_next_batch (env : Handlers.Env)
    (tr : list Event) : Prop :=
  every_point (earlier_sends_settled env) tr.

Definition prunes_start_before_next_batch (tr : list Event) : Prop :=
  every_point earlier_prunes_started tr.

Definition prunes_complete_before_next_batch (tr : list Event) : Prop :=
  every_point earlier_prunes_completed tr.

Definition batch_sends_concurrent (size : nat) (messages : list Message)
    (tr : list Event) : Prop :=
  every_point (batch_fully_called size messages) tr.

(** Batches strictly one after the other, prunes included, as the
    specification words it. *)
Definition strictly_sequential (env : Handlers.Env) (size : nat)
    (messages : list Message) (tr : list Event) : Prop :=
  sends_settle_before_next_batch env tr
  /\ prunes_complete_before_next_batch tr
  /\ batch_sends_concurrent size messages tr.

(** What the code gives: the prunes are started, not awaited. *)
Definition sequential_sends (env : Handlers.Env) (size : nat)
    (messages : list Message) (tr : list Event) : Prop :=
  sends_settle_before_next_batch env tr
  /\ prunes_start_before_next_batch tr
  /\ batch_sends_concurrent size messages tr.

(** The response the handler writes once the loop is over. *)
Definition expected_response (env : Handlers.Env) (messages : list Message)
    : Handlers.Response :=
  Handlers.Json200_sent
    (Z.of_nat (Handlers.delivered_count env (Handlers.indexed 0 messages)))
    (Z.of_nat (Handlers.failed_count env (Handlers.indexed 0 messages))).

(** An event at which none of the orderings asks for anything. *)
Definition inert (e : Event) : Prop :=
  match e with
  | SendIssued _ _ _ | SendSettled _ _ _ => False
  | _ => True
  end.

(** What holds of every state a schedule can reach. *)
Definition invariant (env : Handlers.Env) (size : nat)
    (messages : list Message) (s : State) : Prop :=
  sequential_sends env size messages (trace s)
  /\ (forall i k r,
        In (SendSettled i k r) (trace s) -> is_permanent r = true ->
        exists tok, In (PruneIssued i k tok) (trace s))
  /\ (forall r, In (Responded r) (trace s) ->
                r = expected_response env messages)
  /\ match phase s with
     | AtLoopTest i =>
         i = 0 /\ trace s = [] /\ results s = [] /\ background s = []
     | Awaiting i batch pending =>
         batch = Handlers.indexed i (Handlers.slice messages i (i + size))
         /\ results s
            = Handlers.answers env
                (firstn i (Handlers.indexed 0 messages))
         /\ (forall i1 k m,
               In (SendIssued i1 k m) (trace s) ->
               In (SendSettled i1 k (Handlers.gateway env k m)) (trace s)
               \/ (i1 = i /\ In (k, m) pending))
         /\ (forall km, In km batch ->
                        In (SendIssued i (fst km) (snd km)) (trace s))
     | Done | Crashed => True
     end.

(** *** Causes

    What an event needs to have happened before it. *)
Definition justified (env : Handlers.Env) (e : Event) (earlier : list Event)
    : Prop :=
  match e with
  | SendSettled i k r =>
      exists m, In (SendIssued i k m) earlier
                /\ r = Handlers.gateway env k m
  | PruneIssued i k tok =>
      exists m, In (SendIssued i k m) earlier
                /\ In (SendSettled i k (Handlers.gateway env k m)) earlier
                /\ is_permanent (Handlers.gateway env k m) = true
                /\ tok = token m
  | PruneDone i k tok => In (PruneIssued i k tok) earlier
  | _ => True
  end.

Definition caused (env : Handlers.Env) (tr : list Event) : Prop :=
  every_point (justified env) tr.

(** A schedule in which no removal write completes. *)
Definition completes_nothing (sched : list Action) : Prop :=
  forall j, ~ In (Complete j) sched.

(** The number of sends called and not settled. *)
Definition in_flight (s : State) : nat :=
  match phase s with
  | Awaiting _ _ pending => List.length pending
  | _ => 0
  end.

(** What the state keeps track of, in every state a schedule can
    reach. *)
Definition bookkeeping (env : Handlers.Env) (size : nat) (s : State) : Prop :=
  caused env (trace s)
  /\ (forall i0 k tok, In (i0, k, tok) (background s) ->
                       In (PruneIssued i0 k tok) (trace s))
  /\ match phase s with
     | AtLoopTest _ => True
     | Awaiting i batch pending =>
         (forall k m, In (k, m) pending -> In (SendIssued i k m) (trace s))
         /\ List.length pending <= List.length batch
         /\ List.length batch <= size
     | Done => exists r, In (Responded r) (trace s)
     | Crashed => True
     end.

Definition is_prune_issued (i k : nat) (e : Event) : bool :=
  match e with
  | PruneIssued i' k' _ => (i' =? i) && (k' =? k)
  | _ => false
  end.

Definition is_prune_done (i k : nat) (e : Event) : bool :=
  match e with
  | PruneDone i' k' _ => (i' =? i) && (k' =? k)
  | _ => false
  end.

(** A boolean test that refutes [prunes_complete_before_next_batch]:
    somewhere a send of a batch after [i1] is called while the prune
    started for message [k1] of batch [i1] has not completed. *)
Fixpoint prune_outstanding_at_next_batch (i1 k1 : nat) (tr : list Event)
    : bool :=
  match tr with
  | [] => false
  | e :: earlier =>
      (match e with
       | SendIssued i2 _ _ =>
           (i1 <? i2)
           && existsb (is_prune_issued i1 k1) earlier
           && negb (existsb (is_prune_done i1 k1) earlier)
       | _ => false
       end)
      || prune_outstanding_at_next_batch i1 k1 earlier
  end.

End EventLoop.

(* ================================================================== *)
(** ** Start-up: the service account (app.js 7-18)                      *)
(* ================================================================== *)

Module Bootstrap.

Definition backslash : Ascii.ascii := Ascii.ascii_of_nat 92.
Definition letter_n : Ascii.ascii := Ascii.ascii_of_nat 110.
Definition newline : Ascii.ascii := Ascii.ascii_of_nat 10.

(** [key.replace(/\\n/g, "\n")] (app.js 11): every backslash followed by
    the letter n, scanning from the left, becomes one newline
    character. *)
Fixpoint replace_escaped_newlines (key : string) : string :=
  match key with
  | EmptyString => EmptyString
  | String c rest =>
      match rest with
      | String c' rest' =>
          if Ascii.eqb c backslash && Ascii.eqb c' letter_n
          then String newline (replace_escaped_newlines rest')
          else String c (replace_escaped_newlines rest)
      | EmptyString => String c EmptyString
      end
  end.

(** [process.env.FIREBASE_PRIVATE_KEY.replace(...)]: the variable may be
    unset, and calling [replace] on [undefined] throws. *)
Definition private_key (FIREBASE_PRIVATE_KEY : option string) : option string :=
  match FIREBASE_PRIVATE_KEY with
  | Some key => Some (replace_escaped_newlines key)
  | None => None
  end.

(** The two-character escape occurs somewhere in the text. *)
Fixpoint has_escaped_newline (s : string) : bool :=
  match s with
  | EmptyString => false
  | String c rest =>
      match rest with
      | String c' _ =>
          (Ascii.eqb c backslash && Ascii.eqb c' letter_n)
          || has_escaped_newline rest
      | EmptyString => false
      end
  end.

End Bootstrap.

(* ================================================================== *)
(** ** Concrete requests                                                *)
(* ================================================================== *)

Module Scenario.

Import Gateway Handlers.

Definition rec (t : string) : Store.FcmToken := Store.mkFcmToken t None 0.

(** [u1] holds three tokens, [u2] has a document without tokens, [u3] has
    no document. *)
Definition store_three : Store.Collection :=
  [ Store.mkUserToken "u1" [rec "t1"; rec "t2"; rec "t3"];
    Store.mkUserToken "u2" [] ].

(** The gateway finds the first message's token unregistered, is over
    quota for the second, and delivers the others. *)
Definition gw_mixed (k : nat) (m : Message) : SendResult :=
  match k with
  | 0 => Rejected (Some "messaging/registration-token-not-registered")
  | 1 => Rejected (Some "messaging/quota-exceeded")
  | _ => Resolved "projects/demo/messages/1"
  end.

Definition env_up : Env := mkEnv 0 gw_mixed false false (fun _ => false).

(** The same, the store failing every prune write. *)
Definition env_prune_down : Env := with_prune_fails (fun _ => true) env_up.

(** Two registrations of the same token from two devices, a second apart. *)
Definition registered_twice : World :=
  snd ((register_token (mkEnv 1000 gw_mixed false false (fun _ => false))
                       "u1" "t1" (Some "phone") ;;;
        register_token (mkEnv 2000 gw_mixed false false (fun _ => false))
                       "u1" "t1" (Some "tablet"))
         (fresh [])).

(** One user whose token is stored twice. *)
Definition store_twice : Store.Collection := db registered_twice.

(** [u1] and [u9] hold the same token [t1]; [u9] also holds [t9]. *)
Definition store_shared : Store.Collection :=
  [ Store.mkUserToken "u1" [rec "t1"; rec "t2"];
    Store.mkUserToken "u9" [rec "t1"; rec "t9"] ].

(** The gateway delivers the first message and is over quota for the
    others. *)
Definition gw_transient (k : nat) (m : Message) : SendResult :=
  match k with
  | 0 => Resolved "projects/demo/messages/1"
  | _ => Rejected (Some "messaging/quota-exceeded")
  end.

Definition env_transient : Env :=
  mkEnv 0 gw_transient false false (fun _ => false).

(** The store fails the registration write. *)
Definition env_register_down : Env :=
  mkEnv 0 gw_mixed true false (fun _ => false).

(** The store fails the lookups. *)
Definition env_lookup_down : Env :=
  mkEnv 0 gw_mixed false true (fun _ => false).

(** The messages of a request to [u1], and a complete run in which the
    third send settles first and the prune completes last. *)
Definition messages_three : list Message :=
  map (build_message "T" "B" None) (Store.tokens_of "u1" store_three).

Definition schedule_three : list EventLoop.Action :=
  [ EventLoop.Resume; EventLoop.Settle 2; EventLoop.Settle 0;
    EventLoop.Settle 0; EventLoop.Resume; EventLoop.Complete 0 ].

Definition state_three : EventLoop.State :=
  match EventLoop.exec env_up batchSize messages_three schedule_three
                       EventLoop.init with
  | Some s => s
  | None => EventLoop.init
  end.

(** The first send settles, rejected as unregistered, and the removal
    write it started is rejected in turn before anything else happens. *)
Definition schedule_crash : list EventLoop.Action :=
  [ EventLoop.Resume; EventLoop.Settle 0; EventLoop.Complete 0 ].

Definition state_crash : EventLoop.State :=
  match EventLoop.exec env_prune_down batchSize messages_three schedule_crash
                       EventLoop.init with
  | Some s => s
  | None => EventLoop.init
  end.

(** 501 messages: one more than a batch. *)
Definition token_name (k : nat) : string :=
  "t" ++ NilZero.string_of_uint (Nat.to_uint k).

Definition messages_501 : list Message :=
  map (fun k => mkMessage (mkNotification "T" "B") [] (token_name k))
      (seq 0 501).

(** The first batch is called, its 500 sends settle in array order, and
    the handler goes on to the second batch; the prune started for the
    first message is still in flight. *)
Definition schedule_501 : list EventLoop.Action :=
  EventLoop.Resume :: repeat (EventLoop.Settle 0) 500 ++ [EventLoop.Resume].

(** The state that schedule reaches (the initial one if it could not
    run). *)
Definition state_501 : EventLoop.State :=
  match EventLoop.exec env_up batchSize messages_501 schedule_501
                       EventLoop.init with
  | Some s => s
  | None => EventLoop.init
  end.

End Scenario.

(* ================================================================== *)
(** * Properties                                                        *)
(* ================================================================== *)

Module Dispatch.
Import Gateway Handlers.

Section Indexed.

Context {A : Type}.

Lemma indexed_cons (s : nat) (x : A) l :
  indexed s (x :: l) = (s, x) :: indexed (S s) l.
Proof. reflexivity. Qed.

Lemma indexed_length (s : nat) (l : list A) :
  List.length (indexed s l) = List.length l.
Proof.
  unfold indexed. rewrite length_combine, length_seq. apply Nat.min_id.
Qed.

Lemma indexed_snd (s : nat) (l : list A) : map snd (indexed s l) = l.
Proof.
  revert s; induction l as [|x l IH]; intros s; [reflexivity|].
  rewrite indexed_cons; simpl. now rewrite IH.
Qed.

Lemma indexed_firstn (n s : nat) (l : list A) :
  firstn n (indexed s l) = indexed s (firstn n l).
Proof.
  revert n s; induction l as [|x l IH]; intros [|n] s; try reflexivity.
  rewrite indexed_cons; simpl firstn. now rewrite indexed_cons, IH.
Qed.

Lemma indexed_skipn (n s : nat) (l : list A) :
  skipn n (indexed s l) = indexed (s + n) (skipn n l).
Proof.
  revert n s; induction l as [|x l IH]; intros [|n] s; try reflexivity.
  - simpl skipn. now rewrite Nat.add_0_r.
  - rewrite indexed_cons. simpl skipn. rewrite IH. f_equal. lia.
Qed.

Lemma indexed_slice (i size : nat) (l : list A) :
  indexed i (slice l i (i + size)) = firstn size (skipn i (indexed 0 l)).
Proof.
  unfold slice. replace (i + size - i) with size by lia.
  now rewrite indexed_skipn, indexed_firstn.
Qed.

Lemma slice_step (i size : nat) (l : list A) :
  skipn i l = slice l i (i + size) ++ skipn (i + size) l.
Proof.
  unfold slice. replace (i + size - i) with size by lia.
  rewrite Nat.add_comm, <- skipn_skipn. symmetry. apply firstn_skipn.
Qed.

Lemma chunk_step (i size : nat) (l : list A) :
  firstn size (skipn i l) ++ skipn (i + size) l = skipn i l.
Proof. rewrite Nat.add_comm, <- skipn_skipn. apply firstn_skipn. Qed.

Lemma indexed_in (s : nat) (l : list A) k x :
  In (k, x) (indexed s l) <-> s <= k /\ nth_error l (k - s) = Some x.
Proof.
  revert s; induction l as [|y l IH]; intros s.
  - simpl. split; [tauto|]. intros [_ H]. now destruct (k - s).
  - rewrite indexed_cons. simpl In. rewrite IH. split.
    + intros [H | [Hle H]].
      * inversion H; subst. split; [lia|]. now rewrite Nat.sub_diag.
      * split; [lia|]. replace (k - s) with (S (k - S s)) by lia. exact H.
    + intros [Hle H]. destruct (Nat.eq_dec s k) as [->|Hne].
      * left. rewrite Nat.sub_diag in H. simpl in H. congruence.
      * right. split; [lia|].
        replace (k - s) with (S (k - S s)) in H by lia. exact H.
Qed.

End Indexed.

(** Unfold the monad of the handlers down to the worlds. *)
Ltac step_monad :=
  cbv [try_catch bind query background record read_db write_db ret throw
       fresh db calls];
  cbn [app].

Section Batches.

Variable env : Env.

Lemma issue_all_sends {A} (f : nat * Message -> Promise A) :
  (forall km, issue (f km) = record (Send (snd km))) ->
  forall ims w,
    issue_all (map f ims) w
    = (Ok tt, mkWorld (db w) (calls w ++ map (fun km => Send (snd km)) ims)).
Proof.
  intros Hf ims; induction ims as [|km ims IH]; intros w; simpl.
  - unfold ret. rewrite app_nil_r. now destruct w.
  - unfold bind. rewrite Hf. unfold record at 1. rewrite IH. simpl.
    now rewrite <- app_assoc.
Qed.

Lemma settle_all_caught ims : forall w,
  exists d',
    settle_all (map (fun km => send_caught env (fst km) (snd km)) ims) w
    = (Ok (answers env ims),
       mkWorld d' (calls w ++ background_prunes_of env ims)).
Proof.
  induction ims as [|[k m] ims IH]; intros w; simpl.
  - exists (db w). unfold ret. rewrite app_nil_r. now destruct w.
  - unfold is_permanent, response_of.
    destruct (gateway env k m) as [id|code]; simpl.
    + destruct (IH w) as [d' ->]. now exists d'.
    + destruct (invalid_token_code code); simpl.
      * unfold bind, background, record, ret, write_db, bind; simpl.
        destruct (prune_fails env k); simpl;
          match goal with |- context [settle_all _ ?w1] =>
            destruct (IH w1) as [d' ->] end;
          exists d'; simpl; now rewrite <- !app_assoc.
      * unfold bind, ret; simpl.
        destruct (IH w) as [d' ->]. now exists d'.
Qed.

Lemma settle_all_awaited userId ims : forall w,
  exists d',
    settle_all (map (fun km => send_one env userId (fst km) (snd km)) ims) w
    = ((if existsb (escalates env) ims then Throw StoreUnavailable
        else Ok (answers env ims)),
       mkWorld d' (calls w ++ prunes_of (UpdateOne userId) env ims)).
Proof.
  induction ims as [|[k m] ims IH]; intros w; simpl.
  - exists (db w). unfold ret. rewrite app_nil_r. now destruct w.
  - unfold escalates at 1, is_permanent, response_of; simpl.
    destruct (gateway env k m) as [id|code]; simpl.
    + destruct (IH w) as [d' ->]. exists d'.
      now destruct (existsb (escalates env) ims).
    + destruct (invalid_token_code code); simpl.
      * unfold bind, query, record, ret, write_db, throw, bind; simpl.
        destruct (prune_fails env k); simpl;
          match goal with |- context [settle_all _ ?w1] =>
            destruct (IH w1) as [d' ->] end;
          exists d'; simpl; rewrite <- app_assoc; simpl;
          now destruct (existsb (escalates env) ims).
      * unfold bind, ret; simpl.
        destruct (IH w) as [d' ->]. exists d'.
        now destruct (existsb (escalates env) ims).
Qed.

Lemma Promise_all_caught ims w :
  exists d',
    Promise_all (map (fun km => send_caught env (fst km) (snd km)) ims) w
    = (Ok (answers env ims),
       mkWorld d' (calls w ++ map (fun km => Send (snd km)) ims
                           ++ background_prunes_of env ims)).
Proof.
  unfold Promise_all, bind.
  rewrite (issue_all_sends (fun km => send_caught env (fst km) (snd km)))
    by reflexivity.
  match goal with |- context [settle_all _ ?w1] =>
    destruct (settle_all_caught ims w1) as [d' ->] end.
  exists d'. simpl. now rewrite <- app_assoc.
Qed.

Lemma Promise_all_awaited userId ims w :
  exists d',
    Promise_all (map (fun km => send_one env userId (fst km) (snd km)) ims) w
    = ((if existsb (escalates env) ims then Throw StoreUnavailable
        else Ok (answers env ims)),
       mkWorld d' (calls w ++ map (fun km => Send (snd km)) ims
                           ++ prunes_of (UpdateOne userId) env ims)).
Proof.
  unfold Promise_all, bind.
  rewrite (issue_all_sends (fun km => send_one env userId (fst km) (snd km)))
    by reflexivity.
  match goal with |- context [settle_all _ ?w1] =>
    destruct (settle_all_awaited userId ims w1) as [d' ->] end.
  exists d'. simpl. now rewrite <- app_assoc.
Qed.

(** Projections of the batch's calls. *)

Lemma sent_in_app cs cs' : sent_in (cs ++ cs') = sent_in cs ++ sent_in cs'.
Proof. apply flat_map_app. Qed.

Lemma pruned_in_app cs cs' :
  pruned_in (cs ++ cs') = pruned_in cs ++ pruned_in cs'.
Proof. apply flat_map_app. Qed.

Lemma lookups_in_app cs cs' :
  lookups_in (cs ++ cs') = lookups_in cs ++ lookups_in cs'.
Proof. apply filter_app. Qed.

Lemma sent_in_sends (ims : list (nat * Message)) :
  sent_in (map (fun km => Send (snd km)) ims) = map snd ims.
Proof. induction ims as [|km ims IH]; simpl; congruence. Qed.

Lemma pruned_in_sends (ims : list (nat * Message)) :
  pruned_in (map (fun km => Send (snd km)) ims) = [].
Proof. induction ims as [|km ims IH]; simpl; congruence. Qed.

Lemma lookups_in_sends (ims : list (nat * Message)) :
  lookups_in (map (fun km => Send (snd km)) ims) = [].
Proof. induction ims as [|km ims IH]; simpl; congruence. Qed.

Section Prunes.

Variable prune : string -> Call.
Hypothesis prune_is_removal :
  forall t, prune t = UpdateMany t \/ exists u, prune t = UpdateOne u t.

Lemma sent_in_prunes ims : sent_in (prunes_of prune env ims) = [].
Proof.
  induction ims as [|km ims IH]; simpl; [reflexivity|].
  rewrite sent_in_app, IH, app_nil_r.
  destruct (is_permanent _); [|reflexivity].
  destruct (prune_is_removal (token (snd km))) as [-> | [u ->]]; reflexivity.
Qed.

Lemma lookups_in_prunes ims : lookups_in (prunes_of prune env ims) = [].
Proof.
  induction ims as [|km ims IH]; simpl; [reflexivity|].
  rewrite lookups_in_app, IH, app_nil_r.
  destruct (is_permanent _); [|reflexivity].
  destruct (prune_is_removal (token (snd km))) as [-> | [u ->]]; reflexivity.
Qed.

Lemma pruned_in_prunes ims :
  pruned_in (prunes_of prune env ims) = permanent_tokens env ims.
Proof.
  induction ims as [|km ims IH]; simpl; [reflexivity|].
  rewrite pruned_in_app, IH. f_equal.
  destruct (is_permanent _); [|reflexivity].
  destruct (prune_is_removal (token (snd km))) as [-> | [u ->]]; reflexivity.
Qed.

End Prunes.

Lemma sent_in_background ims : sent_in (background_prunes_of env ims) = [].
Proof.
  induction ims as [|km ims IH]; simpl; [reflexivity|].
  rewrite sent_in_app, IH, app_nil_r.
  destruct (is_permanent _); [|reflexivity].
  now destruct (prune_fails env (fst km)).
Qed.

Lemma lookups_in_background ims :
  lookups_in (background_prunes_of env ims) = [].
Proof.
  induction ims as [|km ims IH]; simpl; [reflexivity|].
  rewrite lookups_in_app, IH, app_nil_r.
  destruct (is_permanent _); [|reflexivity].
  now destruct (prune_fails env (fst km)).
Qed.

Lemma pruned_in_background ims :
  pruned_in (background_prunes_of env ims) = permanent_tokens env ims.
Proof.
  induction ims as [|km ims IH]; simpl; [reflexivity|].
  rewrite pruned_in_app, IH. f_equal.
  destruct (is_permanent _); [|reflexivity].
  now destruct (prune_fails env (fst km)).
Qed.

Lemma removal_many t :
  UpdateMany t = UpdateMany t \/ exists u, UpdateMany t = UpdateOne u t.
Proof. now left. Qed.

Lemma removal_one userId t :
  UpdateOne userId t = UpdateMany t
  \/ exists u, UpdateOne userId t = UpdateOne u t.
Proof. right. now exists userId. Qed.

Lemma answers_app ims ims' :
  answers env (ims ++ ims') = answers env ims ++ answers env ims'.
Proof. apply map_app. Qed.

Lemma permanent_tokens_app ims ims' :
  permanent_tokens env (ims ++ ims')
  = permanent_tokens env ims ++ permanent_tokens env ims'.
Proof. apply flat_map_app. Qed.

Lemma answers_delivered ims :
  List.length (filter not_null (answers env ims)) = delivered_count env ims.
Proof.
  unfold delivered_count, answers.
  induction ims as [|km ims IH]; simpl; [reflexivity|].
  destruct (gateway env (fst km) (snd km)); simpl; congruence.
Qed.

Lemma delivered_plus_failed ims :
  delivered_count env ims + failed_count env ims = List.length ims.
Proof.
  unfold delivered_count, failed_count.
  induction ims as [|km ims IH]; simpl; [reflexivity|].
  destruct (is_delivered _); simpl; lia.
Qed.

(** The loop of the bulk route from position [i] on. *)
Lemma bulk_loop size messages (Hsize : 1 <= size) :
  forall fuel i results w,
    List.length messages - i < fuel ->
    exists w',
      for_batches fuel size messages i (send_batch env) results w
      = (Ok (results ++ answers env (skipn i (indexed 0 messages))), w')
      /\ sends w' = sends w ++ skipn i messages
      /\ pruned w' = pruned w
                     ++ permanent_tokens env (skipn i (indexed 0 messages))
      /\ lookups w' = lookups w.
Proof.
  induction fuel as [|fuel IH]; intros i results w Hfuel; [lia|].
  simpl. destruct (Nat.ltb_spec i (List.length messages)) as [Hlt|Hge].
  - unfold bind at 1, send_batch at 1, bind at 1.
    destruct (Promise_all_caught
                (indexed i (slice messages i (i + size))) w) as [d' ->].
    unfold ret at 1.
    match goal with |- context [for_batches _ _ _ _ _ ?r ?w1] =>
      destruct (IH (i + size) r w1) as (w' & -> & Hs & Hp & Hl); [lia|] end.
    exists w'. unfold sends, pruned, lookups in *. simpl in Hs, Hp, Hl.
    rewrite Hs, Hp, Hl. clear Hs Hp Hl.
    rewrite !sent_in_app, !pruned_in_app, !lookups_in_app.
    rewrite sent_in_sends, pruned_in_sends, lookups_in_sends.
    rewrite sent_in_background, lookups_in_background, pruned_in_background.
    rewrite indexed_snd, indexed_slice. simpl. rewrite !app_nil_r.
    repeat split.
    + now rewrite <- app_assoc, <- answers_app, chunk_step.
    + rewrite <- app_assoc. f_equal. symmetry. apply slice_step.
    + now rewrite <- app_assoc, <- permanent_tokens_app, chunk_step.
  - exists w. rewrite !skipn_all2; [| lia | rewrite indexed_length; lia].
    unfold ret. simpl. now rewrite !app_nil_r.
Qed.

(** *** The bulk route, case by case *)

Section Bulk.

Variables (size : nat) (userIds : list string) (title body : string).
Variable data : option (list (string * string)).
Variable c : Store.Collection.

Let messages := bulk_messages title body data (Store.find_in userIds c).
Let run := send_bulk_with size env userIds title body data (fresh c).

Lemma bulk_lookup_down :
  lookup_fails env = true ->
  run = (Ok (Json500 StoreUnavailable), mkWorld c [Find userIds]).
Proof.
  intros H. unfold run, send_bulk_with. step_monad. now rewrite H.
Qed.

Lemma bulk_no_documents :
  lookup_fails env = false -> Store.find_in userIds c = [] ->
  run = (Ok Json404, mkWorld c [Find userIds]).
Proof.
  intros H Hnone. unfold run, send_bulk_with. step_monad.
  now rewrite H, Hnone.
Qed.

Lemma bulk_run :
  1 <= size -> lookup_fails env = false -> Store.find_in userIds c <> [] ->
  exists w',
    run = (Ok (Json200_sent
                 (Z.of_nat (delivered_count env (indexed 0 messages)))
                 (Z.of_nat (failed_count env (indexed 0 messages)))), w')
    /\ sends w' = messages
    /\ pruned w' = permanent_tokens env (indexed 0 messages)
    /\ lookups w' = [Find userIds].
Proof.
  intros Hsize H Hsome.
  assert (Hlen : (List.length (Store.find_in userIds c) =? 0) = false)
    by (destruct (Store.find_in userIds c); [congruence | reflexivity]).
  unfold run, send_bulk_with. step_monad. rewrite H, Hlen. fold messages.
  destruct (@bulk_loop size messages Hsize (S (List.length messages)) 0 []
              (mkWorld c [Find userIds])) as (w' & -> & Hs & Hp & Hl);
    [lia|].
  exists w'. cbn [app skipn] in *.
  rewrite answers_delivered. repeat split; try assumption.
  do 3 f_equal.
  pose proof (delivered_plus_failed (indexed 0 messages)) as Hsum.
  rewrite indexed_length in Hsum. lia.
Qed.

End Bulk.

(** *** The single-user route, case by case *)

Section Single.

Variables (userId title body : string).
Variable data : option (list (string * string)).
Variable c : Store.Collection.

Let messages := map (build_message title body data) (Store.tokens_of userId c).
Let run := send_notification env userId title body data (fresh c).

Lemma single_lookup_down :
  lookup_fails env = true ->
  run = (Ok (Json500 StoreUnavailable), mkWorld c [FindOne userId]).
Proof.
  intros H. unfold run, send_notification. step_monad. now rewrite H.
Qed.

Lemma single_no_tokens :
  lookup_fails env = false -> Store.tokens_of userId c = [] ->
  run = (Ok Json404, mkWorld c [FindOne userId]).
Proof.
  intros H Hnone. unfold run, send_notification. step_monad. rewrite H.
  unfold Store.tokens_of in Hnone.
  destruct (Store.findOne userId c) as [d|]; [|reflexivity].
  now rewrite Hnone.
Qed.

Lemma single_run :
  lookup_fails env = false -> Store.tokens_of userId c <> [] ->
  exists w',
    run = (Ok (if existsb (escalates env) (indexed 0 messages)
               then Json500 StoreUnavailable
               else Json200_sent
                      (Z.of_nat (delivered_count env (indexed 0 messages)))
                      (Z.of_nat (failed_count env (indexed 0 messages)))),
           w')
    /\ sends w' = messages
    /\ pruned w' = permanent_tokens env (indexed 0 messages)
    /\ lookups w' = [FindOne userId].
Proof.
  intros H Hsome. unfold run, send_notification. step_monad. rewrite H.
  subst messages. unfold Store.tokens_of in *.
  destruct (Store.findOne userId c) as [d|]; [|congruence].
  destruct (Store.fcmTokens d) as [|r rs] eqn:E; [congruence|].
  cbn [List.length Nat.eqb]. rewrite <- E.
  set (messages := map (build_message title body data) (Store.fcmTokens d)).
  destruct (Promise_all_awaited userId (indexed 0 messages)
              (mkWorld c [FindOne userId])) as [d' ->].
  eexists. split; [|repeat split].
  - destruct (existsb (escalates env) (indexed 0 messages)); [reflexivity|].
    rewrite answers_delivered. do 3 f_equal.
    pose proof (delivered_plus_failed (indexed 0 messages)) as Hsum.
    rewrite indexed_length in Hsum. lia.
  - unfold sends. cbn [calls app]. cbn [sent_in flat_map app].
    fold (sent_in (map (fun km : nat * Message => Send (snd km))
                       (indexed 0 messages)
                   ++ prunes_of (UpdateOne userId) env (indexed 0 messages))).
    rewrite sent_in_app, sent_in_sends,
      (sent_in_prunes (UpdateOne userId) (removal_one userId)).
    now rewrite app_nil_r, indexed_snd.
  - unfold pruned. cbn [calls app]. cbn [pruned_in flat_map app].
    fold (pruned_in (map (fun km : nat * Message => Send (snd km))
                         (indexed 0 messages)
                     ++ prunes_of (UpdateOne userId) env (indexed 0 messages))).
    rewrite pruned_in_app, pruned_in_sends,
      (pruned_in_prunes (UpdateOne userId) (removal_one userId)).
    reflexivity.
  - unfold lookups. cbn [calls app]. cbn [lookups_in filter].
    fold (lookups_in (map (fun km : nat * Message => Send (snd km))
                          (indexed 0 messages)
                      ++ prunes_of (UpdateOne userId) env (indexed 0 messages))).
    rewrite lookups_in_app, lookups_in_sends,
      (lookups_in_prunes (UpdateOne userId) (removal_one userId)).
    reflexivity.
Qed.

End Single.

End Batches.
Lemma classify_permanent r :
  classify r = PermanentInvalidToken <-> is_permanent r = true.
Proof.
  destruct r as [id|code]; simpl; [split; discriminate|].
  destruct (invalid_token_code code); split; congruence.
Qed.

Lemma classify_transient r :
  classify r = TransientFailure <->
  exists code, r = Rejected code /\ invalid_token_code code = false.
Proof.
  destruct r as [id|code]; simpl.
  - split; [discriminate | intros (c' & H & _); discriminate].
  - destruct (invalid_token_code code) eqn:E; split; try discriminate.
    + intros (c' & H & H'). inversion H; subst. congruence.
    + intros _. now exists code.
    + reflexivity.
Qed.

Lemma permanent_tokens_in env ims t :
  In t (permanent_tokens env ims) <->
  exists k m, In (k, m) ims /\ token m = t
              /\ is_permanent (gateway env k m) = true.
Proof.
  unfold permanent_tokens. rewrite in_flat_map. split.
  - intros ([k m] & Hin & Ht). simpl in Ht.
    destruct (is_permanent (gateway env k m)) eqn:E; [|contradiction].
    destruct Ht as [<- | []]. now exists k, m.
  - intros (k & m & Hin & <- & Hp). exists (k, m). split; [assumption|].
    simpl. rewrite Hp. now left.
Qed.

(** The removal writes of either route are those of the permanently
    invalid positions, and there are none when the lookup fails. *)
Lemma single_pruned env userId title body data c :
  incl (pruned (snd (send_notification env userId title body data (fresh c))))
       (permanent_tokens env
          (indexed 0 (map (build_message title body data)
                          (Store.tokens_of userId c)))).
Proof.
  destruct (lookup_fails env) eqn:Hl.
  - rewrite single_lookup_down by assumption. intros t [].
  - destruct (Store.tokens_of userId c) as [|r rs] eqn:E.
    + rewrite single_no_tokens by assumption. intros t [].
    + destruct (@single_run env userId title body data c Hl)
        as (w' & -> & _ & Hp & _); [congruence|].
      simpl. rewrite Hp, E. apply incl_refl.
Qed.

Lemma bulk_pruned env size userIds title body data c :
  1 <= size ->
  incl (pruned (snd (send_bulk_with size env userIds title body data
                                    (fresh c))))
       (permanent_tokens env
          (indexed 0 (bulk_messages title body data
                                    (Store.find_in userIds c)))).
Proof.
  intros Hsize. destruct (lookup_fails env) eqn:Hl.
  - rewrite bulk_lookup_down by assumption. intros t [].
  - destruct (Store.find_in userIds c) as [|d ds] eqn:E.
    + rewrite bulk_no_documents by assumption. intros t [].
    + destruct (@bulk_run env size userIds title body data c Hsize Hl)
        as (w' & -> & _ & Hp & _); [congruence|].
      simpl. rewrite Hp, E. apply incl_refl.
Qed.

Lemma batchSize_positive : 1 <= batchSize.
Proof. unfold batchSize. lia. Qed.

(** C1. A token whose sends in a request all ended delivered or in a
    transient failure (a rejection whose code is neither
    messaging/invalid-registration-token nor
    messaging/registration-token-not-registered) gets no removal write,
    from /send-notification and from /send-bulk-notification alike: a
    removal write needs a send rejected with one of the two codes. *)
Theorem transient_failure_never_prunes :
  forall env title body data c t,
    (forall userId,
       (forall k m,
          In (k, m) (indexed 0 (map (build_message title body data)
                                    (Store.tokens_of userId c))) ->
          token m = t ->
          classify (gateway env k m) <> PermanentInvalidToken) ->
       ~ In t (pruned (snd (send_notification env userId title body data
                                              (fresh c)))))
    /\
    (forall userIds,
       (forall k m,
          In (k, m) (indexed 0 (bulk_messages title body data
                                              (Store.find_in userIds c))) ->
          token m = t ->
          classify (gateway env k m) <> PermanentInvalidToken) ->
       ~ In t (pruned (snd (send_bulk_notification env userIds title body data
                                                   (fresh c))))).
Proof.
  intros env title body data c t. split.
  - intros userId Hno Hin. apply single_pruned in Hin.
    apply permanent_tokens_in in Hin as (k & m & Hkm & Ht & Hp).
    apply (Hno k m Hkm Ht). now apply classify_permanent.
  - intros userIds Hno Hin.
    apply (bulk_pruned _ _ _ _ _ _ batchSize_positive) in Hin.
    apply permanent_tokens_in in Hin as (k & m & Hkm & Ht & Hp).
    apply (Hno k m Hkm Ht). now apply classify_permanent.
Qed.

Lemma transient_failure_never_prunes_witness :
  ~ In "t2" (pruned (snd (send_notification Scenario.env_up "u1" "T" "B" None
                                            (fresh Scenario.store_three))))
  /\ ~ In "t2" (pruned (snd (send_bulk_notification Scenario.env_up
                                                    ["u1"; "u2"] "T" "B" None
                                                    (fresh Scenario.store_three)))).
Proof.
  destruct (transient_failure_never_prunes Scenario.env_up "T" "B" None
              Scenario.store_three "t2") as [Hone Hmany].
  split.
  - apply Hone. intros k m Hin Ht.
    simpl in Hin. destruct Hin as [H | [H | [H | []]]];
      inversion H; subst; simpl in *; discriminate.
  - apply Hmany. intros k m Hin Ht.
    simpl in Hin. destruct Hin as [H | [H | [H | []]]];
      inversion H; subst; simpl in *; discriminate.
Defined.

(** What the handler of the bulk route writes, if the process lives long
    enough for it to write, does not depend on the fate of the prune
    writes. *)
Lemma bulk_response_ignores_prune_failure env pf userIds title body data c :
  fst (send_bulk_notification (with_prune_fails pf env) userIds title body data
                              (fresh c))
  = fst (send_bulk_notification env userIds title body data (fresh c)).
Proof.
  unfold send_bulk_notification.
  destruct (lookup_fails env) eqn:Hl.
  - now rewrite !bulk_lookup_down.
  - destruct (Store.find_in userIds c) as [|d ds] eqn:E.
    + now rewrite !bulk_no_documents.
    + destruct (@bulk_run env batchSize userIds title body data c
                  batchSize_positive Hl) as (w1 & -> & _); [congruence|].
      destruct (@bulk_run (with_prune_fails pf env) batchSize userIds title
                  body data c batchSize_positive Hl) as (w2 & -> & _);
        [congruence|].
      reflexivity.
Qed.

(** The response of the single-user route does: one awaited prune that
    fails turns it into a server error. *)
Lemma single_prune_failure_escalates env userId title body data c k m :
  lookup_fails env = false ->
  In (k, m) (indexed 0 (map (build_message title body data)
                            (Store.tokens_of userId c))) ->
  is_permanent (gateway env k m) = true ->
  prune_fails env k = true ->
  fst (send_notification env userId title body data (fresh c))
  = Ok (Json500 StoreUnavailable).
Proof.
  intros Hl Hin Hp Hf.
  destruct (@single_run env userId title body data c Hl) as (w' & -> & _).
  - intros E. rewrite E in Hin. destruct Hin.
  - simpl. replace (existsb _ _) with true; [reflexivity|].
    symmetry. apply existsb_exists. exists (k, m). split; [assumption|].
    unfold escalates. simpl. now rewrite Hp, Hf.
Qed.

(** C3. With u1 holding t1, t2, t3, the gateway finding t1 unregistered
    and the store failing the prune write, /send-notification answers
    500, where it answers 200 with 1 sent and 2 failed when the prune
    write succeeds. *)
Theorem prune_failure_reaches_single_response :
  fst (send_notification Scenario.env_prune_down "u1" "T" "B" None
                         (fresh Scenario.store_three))
  = Ok (Json500 StoreUnavailable)
  /\ fst (send_notification Scenario.env_up "u1" "T" "B" None
                            (fresh Scenario.store_three))
     = Ok (Json200_sent 1 2).
Proof. split; vm_compute; reflexivity. Qed.

(** C4. Whenever either route reports counts, the number sent plus the
    number failed is the number of messages handed to the gateway; the
    first is the number of resolved sends, the second the number of
    rejected ones, and the messages are one per stored token. *)
Theorem delivered_plus_failed_is_attempted :
  forall env title body data c,
    (forall userId successful failed w',
       send_notification env userId title body data (fresh c)
       = (Ok (Json200_sent successful failed), w') ->
       let messages := map (build_message title body data)
                           (Store.tokens_of userId c) in
       (successful + failed)%Z = Z.of_nat (List.length (sends w'))
       /\ sends w' = messages
       /\ successful = Z.of_nat (delivered_count env (indexed 0 messages))
       /\ failed = Z.of_nat (failed_count env (indexed 0 messages)))
    /\
    (forall userIds successful failed w',
       send_bulk_notification env userIds title body data (fresh c)
       = (Ok (Json200_sent successful failed), w') ->
       let messages := bulk_messages title body data
                                     (Store.find_in userIds c) in
       (successful + failed)%Z = Z.of_nat (List.length (sends w'))
       /\ sends w' = messages
       /\ successful = Z.of_nat (delivered_count env (indexed 0 messages))
       /\ failed = Z.of_nat (failed_count env (indexed 0 messages))).
Proof.
  intros env title body data c. split.
  - intros userId successful failed w' Hrun messages.
    destruct (lookup_fails env) eqn:Hl.
    { rewrite single_lookup_down in Hrun by assumption. discriminate. }
    destruct (Store.tokens_of userId c) as [|r rs] eqn:E.
    { rewrite single_no_tokens in Hrun by assumption. discriminate. }
    destruct (@single_run env userId title body data c Hl)
      as (w1 & Hrun1 & Hs & _); [congruence|].
    rewrite Hrun1 in Hrun. rewrite E in Hrun, Hs. fold messages in Hrun, Hs.
    destruct (existsb (escalates env) (indexed 0 messages));
      [discriminate|].
    inversion Hrun; subst w1 successful failed. clear Hrun.
    repeat split; try assumption.
    rewrite Hs. pose proof (delivered_plus_failed env (indexed 0 messages)) as H.
    rewrite indexed_length in H. lia.
  - intros userIds successful failed w' Hrun messages.
    unfold send_bulk_notification in Hrun.
    destruct (lookup_fails env) eqn:Hl.
    { rewrite bulk_lookup_down in Hrun by assumption. discriminate. }
    destruct (Store.find_in userIds c) as [|d ds] eqn:E.
    { rewrite bulk_no_documents in Hrun by assumption. discriminate. }
    destruct (@bulk_run env batchSize userIds title body data c
                batchSize_positive Hl) as (w1 & Hrun1 & Hs & _); [congruence|].
    rewrite Hrun1 in Hrun. rewrite E in Hrun, Hs. fold messages in Hrun, Hs.
    inversion Hrun; subst w1 successful failed. clear Hrun.
    repeat split; try assumption.
    rewrite Hs. pose proof (delivered_plus_failed env (indexed 0 messages)) as H.
    rewrite indexed_length in H. lia.
Qed.

Lemma delivered_plus_failed_is_attempted_witness :
  (1 + 2)%Z
  = Z.of_nat (List.length
                (sends (snd (send_notification Scenario.env_up "u1" "T" "B"
                                               None
                                               (fresh Scenario.store_three)))))
  /\ (1 + 2)%Z
     = Z.of_nat (List.length
                   (sends (snd (send_bulk_notification
                                  Scenario.env_up ["u1"; "u2"] "T" "B" None
                                  (fresh Scenario.store_three))))).
Proof.
  destruct (delivered_plus_failed_is_attempted Scenario.env_up "T" "B" None
              Scenario.store_three) as [Hone Hmany].
  split.
  - refine (proj1 (Hone "u1" 1%Z 2%Z _ _)). vm_compute. reflexivity.
  - refine (proj1 (Hmany ["u1"; "u2"] 1%Z 2%Z _ _)). vm_compute. reflexivity.
Defined.

(** C7. A user without a document, or whose document has no token, gets
    no gateway send; the route answers (it does not throw), and the
    answer is the 404 whenever the lookup itself succeeds. *)
Theorem no_tokens_no_sends :
  forall env userId title body data c,
    (Store.findOne userId c = None
     \/ exists d, Store.findOne userId c = Some d /\ Store.fcmTokens d = []) ->
    let run := send_notification env userId title body data (fresh c) in
    sends (snd run) = []
    /\ (exists r, fst run = Ok r)
    /\ (lookup_fails env = false ->
        fst run = Ok Json404 /\ status Json404 = 404%Z).
Proof.
  intros env userId title body data c Hzero run.
  assert (Hnone : Store.tokens_of userId c = []).
  { unfold Store.tokens_of.
    destruct Hzero as [-> | (d & -> & Hd)]; [reflexivity | exact Hd]. }
  subst run. destruct (lookup_fails env) eqn:Hl.
  - rewrite single_lookup_down by assumption. simpl.
    split; [reflexivity|]. split; [eexists; reflexivity | discriminate].
  - rewrite single_no_tokens by assumption. simpl.
    split; [reflexivity|]. split; [eexists; reflexivity | now split].
Qed.

Lemma no_tokens_no_sends_witness :
  sends (snd (send_notification Scenario.env_up "u3" "T" "B" None
                                (fresh Scenario.store_three))) = []
  /\ fst (send_notification Scenario.env_up "u3" "T" "B" None
                            (fresh Scenario.store_three)) = Ok Json404
  /\ fst (send_notification Scenario.env_up "u2" "T" "B" None
                            (fresh Scenario.store_three)) = Ok Json404.
Proof.
  split; [|split].
  - refine (proj1 (no_tokens_no_sends Scenario.env_up "u3" "T" "B" None
                     Scenario.store_three _)).
    left. reflexivity.
  - refine (proj1 (proj2 (proj2 (no_tokens_no_sends Scenario.env_up "u3" "T"
                                   "B" None Scenario.store_three _)) _)).
    + left. reflexivity.
    + reflexivity.
  - refine (proj1 (proj2 (proj2 (no_tokens_no_sends Scenario.env_up "u2" "T"
                                   "B" None Scenario.store_three _)) _)).
    + right. eexists. split; reflexivity.
    + reflexivity.
Defined.

Lemma find_in_nil c : Store.find_in [] c = [].
Proof. induction c as [|d c IH]; [reflexivity | exact IH]. Qed.

(** C6, as the specification has it, fails: with an empty list of
    userIds the many-user lookup is issued all the same. *)
Lemma empty_userIds_lookup_is_issued :
  let run := send_bulk_notification Scenario.env_up [] "T" "B" None
                                    (fresh Scenario.store_three) in
  ~ (fst run = Ok Json404 /\ lookups (snd run) = []).
Proof. intros run [_ H]. vm_compute in H. discriminate. Qed.

(** C6, amended. With an empty list of userIds, and the store answering,
    /send-bulk-notification issues the many-user lookup once, with the
    empty list, sends nothing and answers 404. *)
Theorem empty_userIds_not_found_after_lookup :
  forall env title body data c,
    lookup_fails env = false ->
    let run := send_bulk_notification env [] title body data (fresh c) in
    fst run = Ok Json404
    /\ lookups (snd run) = [Find []]
    /\ sends (snd run) = [].
Proof.
  intros env title body data c Hl run. subst run.
  unfold send_bulk_notification.
  rewrite bulk_no_documents by (assumption || apply find_in_nil).
  repeat split.
Qed.

Lemma empty_userIds_not_found_after_lookup_witness :
  fst (send_bulk_notification Scenario.env_up [] "T" "B" None
                              (fresh Scenario.store_three)) = Ok Json404
  /\ lookups (snd (send_bulk_notification Scenario.env_up [] "T" "B" None
                                          (fresh Scenario.store_three)))
     = [Find []]
  /\ sends (snd (send_bulk_notification Scenario.env_up [] "T" "B" None
                                        (fresh Scenario.store_three))) = [].
Proof.
  apply (empty_userIds_not_found_after_lookup Scenario.env_up "T" "B" None
           Scenario.store_three).
  reflexivity.
Defined.

Lemma bulk_messages_empty title body data docs :
  (forall d, In d docs -> Store.fcmTokens d = []) ->
  bulk_messages title body data docs = [].
Proof.
  induction docs as [|d docs IH]; intros H; [reflexivity|].
  unfold bulk_messages in *. simpl.
  rewrite (H d) by now left. simpl. apply IH.
  intros d' Hd'. apply H. now right.
Qed.

(** C10. When the lookup returns at least one document and none of the
    documents returned holds a token, /send-bulk-notification does not
    answer 404: it sends nothing and answers 200 with 0 sent and
    0 failed. *)
Theorem empty_token_sets_report_zero :
  forall env userIds title body data c,
    lookup_fails env = false ->
    Store.find_in userIds c <> [] ->
    (forall d, In d (Store.find_in userIds c) -> Store.fcmTokens d = []) ->
    let run := send_bulk_notification env userIds title body data (fresh c) in
    run = (Ok (Json200_sent 0 0), mkWorld c [Find userIds])
    /\ fst run <> Ok Json404
    /\ sends (snd run) = [].
Proof.
  intros env userIds title body data c Hl Hsome Hempty run.
  assert (E : run = (Ok (Json200_sent 0 0), mkWorld c [Find userIds])).
  { subst run. unfold send_bulk_notification, send_bulk_with.
    assert (Hlen : (List.length (Store.find_in userIds c) =? 0) = false)
      by (destruct (Store.find_in userIds c); [congruence | reflexivity]).
    step_monad. rewrite Hl, Hlen.
    rewrite (bulk_messages_empty title body data _ Hempty).
    reflexivity. }
  rewrite E. repeat split. discriminate.
Qed.

Lemma empty_token_sets_report_zero_witness :
  send_bulk_notification Scenario.env_up ["u2"; "u3"] "T" "B" None
                         (fresh Scenario.store_three)
  = (Ok (Json200_sent 0 0), mkWorld Scenario.store_three [Find ["u2"; "u3"]]).
Proof.
  refine (proj1 (empty_token_sets_report_zero Scenario.env_up ["u2"; "u3"]
                   "T" "B" None Scenario.store_three _ _ _)).
  - reflexivity.
  - vm_compute. discriminate.
  - vm_compute. intros d [<- | []]. reflexivity.
Defined.

End Dispatch.

(* ------------------------------------------------------------------ *)
(** ** Resolution of a list of userIds                                  *)
(* ------------------------------------------------------------------ *)

Module Resolution.

Import Gateway Handlers.

Lemma find_in_nodup userIds c :
  Store.find_in (nodup string_dec userIds) c = Store.find_in userIds c.
Proof.
  unfold Store.find_in. apply filter_ext. intros d.
  apply eq_true_iff_eq. rewrite !existsb_exists.
  split; intros (u & Hin & Hu); exists u; split; try assumption;
    now apply (nodup_In string_dec).
Qed.

Lemma find_in_incl userIds c d : In d (Store.find_in userIds c) -> In d c.
Proof. unfold Store.find_in. intros H. now apply filter_In in H. Qed.

(** The route depends on [userIds] through the documents found only. *)
Lemma bulk_same_documents env userIds userIds' title body data c :
  Store.find_in userIds c = Store.find_in userIds' c ->
  fst (send_bulk_notification env userIds title body data (fresh c))
  = fst (send_bulk_notification env userIds' title body data (fresh c))
  /\ sends (snd (send_bulk_notification env userIds title body data (fresh c)))
     = sends (snd (send_bulk_notification env userIds' title body data
                                          (fresh c))).
Proof.
  intros E. unfold send_bulk_notification.
  destruct (lookup_fails env) eqn:Hl.
  - rewrite !Dispatch.bulk_lookup_down by assumption. now split.
  - destruct (Store.find_in userIds' c) as [|d ds] eqn:E'.
    + rewrite !Dispatch.bulk_no_documents by assumption. now split.
    + destruct (@Dispatch.bulk_run env batchSize userIds title body data c
                  Dispatch.batchSize_positive Hl)
        as (w1 & -> & Hs1 & _); [congruence|].
      destruct (@Dispatch.bulk_run env batchSize userIds' title body data c
                  Dispatch.batchSize_positive Hl)
        as (w2 & -> & Hs2 & _); [congruence|].
      simpl. rewrite Hs1, Hs2, E, E'. now split.
Qed.

Lemma bulk_sends env userIds title body data c :
  lookup_fails env = false ->
  sends (snd (send_bulk_notification env userIds title body data (fresh c)))
  = bulk_messages title body data (Store.find_in userIds c).
Proof.
  intros Hl. unfold send_bulk_notification.
  destruct (Store.find_in userIds c) as [|d ds] eqn:E.
  - now rewrite Dispatch.bulk_no_documents.
  - destruct (@Dispatch.bulk_run env batchSize userIds title body data c
                Dispatch.batchSize_positive Hl)
      as (w1 & -> & Hs1 & _); [congruence|].
    simpl. now rewrite Hs1, E.
Qed.

Lemma messages_of_pairs title body data userIds c :
  bulk_messages title body data (Store.find_in userIds c)
  = map (fun p => mkMessage (mkNotification title body) (data_or_empty data)
                            (snd p))
        (resolved_pairs userIds c).
Proof.
  unfold bulk_messages, resolved_pairs.
  induction (Store.find_in userIds c) as [|d ds IH]; [reflexivity|].
  simpl. rewrite map_app, map_map, IH. reflexivity.
Qed.

Lemma resolved_pairs_NoDup userIds c :
  Store.unique_userIds c -> Store.unique_tokens c ->
  NoDup (resolved_pairs userIds c).
Proof.
  unfold Store.unique_userIds, Store.unique_tokens, resolved_pairs.
  induction c as [|d c IH]; intros Hu Ht; [constructor|].
  simpl in Hu. inversion Hu as [|u us Hnotin Hu']; subst.
  assert (Hrest : NoDup
            (flat_map (fun user => map (fun tokenInfo =>
                                          (Store.userId user,
                                           Store.token tokenInfo))
                                       (Store.fcmTokens user))
                      (Store.find_in userIds c))).
  { apply IH; [assumption|]. intros d' Hd'. apply Ht. now right. }
  simpl. destruct (existsb _ userIds); [|exact Hrest].
  simpl. apply NoDup_app; [| exact Hrest |].
  - apply (NoDup_map_inv snd). rewrite map_map. simpl.
    apply Ht. now left.
  - intros [u t] Hin Hin'.
    apply in_map_iff in Hin as (r & Hr & _). inversion Hr; subst u.
    apply in_flat_map in Hin' as (d' & Hd' & Hin').
    apply in_map_iff in Hin' as (r' & Hr' & _). inversion Hr'.
    apply Hnotin. apply in_map_iff. exists d'. split; [assumption|].
    now apply (@find_in_incl userIds).
Qed.

(** A userId repeated in [userIds] changes nothing: the route answers
    and sends as it does for the list without repetitions.  The messages
    are one per (user, token) pair of the documents found, and with the
    unique index on [userId] and distinct tokens inside each document
    every pair occurs once. *)
Theorem duplicate_userIds_send_once :
  forall env userIds title body data c,
    let run := send_bulk_notification env userIds title body data (fresh c) in
    let run1 := send_bulk_notification env (nodup string_dec userIds)
                                       title body data (fresh c) in
    (fst run = fst run1 /\ sends (snd run) = sends (snd run1))
    /\ (lookup_fails env = false ->
        sends (snd run)
        = map (fun p => mkMessage (mkNotification title body)
                                  (data_or_empty data) (snd p))
              (resolved_pairs userIds c))
    /\ (Store.unique_userIds c -> Store.unique_tokens c ->
        NoDup (resolved_pairs userIds c)).
Proof.
  intros env userIds title body data c run run1. subst run run1.
  split; [|split].
  - apply bulk_same_documents. symmetry. apply find_in_nodup.
  - intros Hl. rewrite bulk_sends by assumption. apply messages_of_pairs.
  - apply resolved_pairs_NoDup.
Qed.

Lemma store_three_unique_userIds : Store.unique_userIds Scenario.store_three.
Proof.
  unfold Store.unique_userIds. simpl.
  repeat constructor; simpl; intuition discriminate.
Qed.

Lemma store_three_unique_tokens : Store.unique_tokens Scenario.store_three.
Proof.
  intros d [<- | [<- | []]]; simpl;
    repeat constructor; simpl; intuition discriminate.
Qed.

Lemma duplicate_userIds_send_once_witness :
  sends (snd (send_bulk_notification Scenario.env_up ["u1"; "u1"] "T" "B" None
                                     (fresh Scenario.store_three)))
  = map (fun p => mkMessage (mkNotification "T" "B") [] (snd p))
        [("u1", "t1"); ("u1", "t2"); ("u1", "t3")]
  /\ NoDup (resolved_pairs ["u1"; "u1"] Scenario.store_three).
Proof.
  destruct (duplicate_userIds_send_once Scenario.env_up ["u1"; "u1"] "T" "B"
              None Scenario.store_three) as (_ & Hsends & Hpairs).
  split.
  - apply Hsends. reflexivity.
  - apply Hpairs.
    + exact store_three_unique_userIds.
    + exact store_three_unique_tokens.
Defined.

(** C8. On the collection two registrations of ("u1", "t1") leave
    (one document, two records for "t1"), a bulk request for
    ["u1"; "u1"] resolves the pair ("u1", "t1") twice and hands the
    gateway two messages for "t1"; the repeated userId itself adds
    nothing: the request for ["u1"] does the same. *)
Theorem duplicate_records_are_sent_twice :
  resolved_pairs ["u1"; "u1"] Scenario.store_twice
  = [("u1", "t1"); ("u1", "t1")]
  /\ map token
         (sends (snd (send_bulk_notification Scenario.env_transient
                        ["u1"; "u1"] "T" "B" None
                        (fresh Scenario.store_twice))))
     = ["t1"; "t1"]
  /\ ~ NoDup (resolved_pairs ["u1"; "u1"] Scenario.store_twice)
  /\ sends (snd (send_bulk_notification Scenario.env_transient ["u1"] "T" "B"
                                        None (fresh Scenario.store_twice)))
     = sends (snd (send_bulk_notification Scenario.env_transient ["u1"; "u1"]
                                          "T" "B" None
                                          (fresh Scenario.store_twice))).
Proof.
  split; [reflexivity|]. split; [reflexivity|]. split; [|reflexivity].
  intros H. vm_compute in H. inversion H as [|x l Hnotin _]; subst.
  apply Hnotin. now left.
Qed.

End Resolution.

(* ------------------------------------------------------------------ *)
(** ** The batching loop                                                *)
(* ------------------------------------------------------------------ *)

Module Batching.

Import Handlers.

Section Groups.

Context {A : Type}.
Variable size : nat.
Hypothesis size_positive : 1 <= size.
Variable items : list A.

Lemma groups_left_done i :
  List.length items <= i -> groups_left size items i = 0.
Proof.
  intros H. unfold groups_left.
  replace (List.length items - i) with 0 by lia.
  apply Nat.div_small. lia.
Qed.

Lemma groups_left_step i :
  i < List.length items ->
  groups_left size items i = S (groups_left size items (i + size)).
Proof.
  intros H. unfold groups_left.
  destruct (Nat.le_gt_cases (List.length items) (i + size)) as [Hle|Hgt].
  - replace (List.length items - (i + size)) with 0 by lia.
    rewrite (Nat.div_small (0 + size - 1)) by lia.
    symmetry. apply (Nat.div_unique _ _ 1 (List.length items - i - 1)); lia.
  - replace (List.length items - i + size - 1)
      with (List.length items - (i + size) + size - 1 + 1 * size) by lia.
    rewrite Nat.div_add by lia. lia.
Qed.

Lemma slice_length i :
  List.length (slice items i (i + size))
  = Nat.min size (List.length items - i).
Proof.
  unfold slice. replace (i + size - i) with size by lia.
  now rewrite length_firstn, length_skipn.
Qed.

(** The loop from [i] on, with what it has collected so far. *)
Lemma batches_from :
  forall fuel i acc w,
    List.length items - i < fuel ->
    exists groups,
      for_batches fuel size items i
                  (fun _ batch acc => ret (acc ++ [batch])) acc w
      = (Ok (acc ++ groups), w)
      /\ List.length groups = groups_left size items i
      /\ concat groups = skipn i items
      /\ (forall g, In g groups -> 1 <= List.length g <= size)
      /\ (forall j g, nth_error groups j = Some g ->
                      S j < List.length groups -> List.length g = size).
Proof.
  induction fuel as [|fuel IH]; intros i acc w Hfuel; [lia|].
  simpl. destruct (Nat.ltb_spec i (List.length items)) as [Hlt|Hge].
  - unfold bind at 1, ret at 1.
    destruct (IH (i + size) (acc ++ [slice items i (i + size)]) w)
      as (groups & -> & Hlen & Hcat & Hsz & Hfull); [lia|].
    exists (slice items i (i + size) :: groups).
    split; [now rewrite <- app_assoc|].
    split; [simpl; rewrite Hlen; symmetry; now apply groups_left_step|].
    split; [simpl; rewrite Hcat; symmetry; apply Dispatch.slice_step|].
    split.
    + intros g [<- | Hg]; [|now apply Hsz]. rewrite slice_length. lia.
    + intros [|j] g Hnth Hj; simpl in Hnth, Hj.
      * inversion Hnth; subst g. rewrite slice_length.
        assert (0 < groups_left size items (i + size)) by lia.
        destruct (Nat.le_gt_cases (List.length items) (i + size)) as [H'|H'];
          [rewrite groups_left_done in H by assumption; lia | lia].
      * apply (Hfull j g Hnth). lia.
  - exists []. unfold ret. rewrite app_nil_r.
    split; [reflexivity|].
    split; [symmetry; now apply groups_left_done|].
    split; [now rewrite skipn_all2|].
    split; [intros g [] | intros [|j] g Hnth; discriminate].
Qed.

(** Whatever its body, the loop runs it on those groups, in order. *)
Lemma loop_runs_the_groups :
  forall fuel i,
    List.length items - i < fuel ->
    exists groups,
      (forall acc w,
         for_batches fuel size items i
                     (fun _ batch acc => ret (acc ++ [batch])) acc w
         = (Ok (acc ++ groups), w))
      /\ (forall R (body : nat -> list A -> R -> M R) acc w,
            for_batches fuel size items i body acc w
            = run_batches body size i groups acc w).
Proof.
  induction fuel as [|fuel IH]; intros i Hfuel; [lia|].
  simpl. destruct (Nat.ltb_spec i (List.length items)) as [Hlt|Hge].
  - destruct (IH (i + size)) as (groups & Hcollect & Hrun); [lia|].
    exists (slice items i (i + size) :: groups). split.
    + intros acc w. unfold bind at 1, ret at 1.
      rewrite Hcollect. now rewrite <- app_assoc.
    + intros R body acc w. simpl. unfold bind.
      destruct (body i (slice items i (i + size)) acc w) as [[a|e|] w'];
        [apply Hrun | reflexivity | reflexivity].
  - exists []. split.
    + intros acc w. unfold ret. now rewrite app_nil_r.
    + reflexivity.
Qed.

End Groups.

(** C5. For N items and a batch size S of at least 1 the loop ends and
    slices ceil(N/S) groups, none empty, none longer than S, all of length
    S except possibly the last, whose concatenation in order is the
    input. *)
Theorem batches_partition :
  forall (A : Type) (items : list A) (size fuel : nat) (w : World),
    1 <= size -> List.length items < fuel ->
    exists groups,
      batches fuel size items 0 w = (Ok groups, w)
      /\ List.length groups = (List.length items + size - 1) / size
      /\ concat groups = items
      /\ (forall g, In g groups -> 1 <= List.length g <= size)
      /\ (forall j g, nth_error groups j = Some g ->
                      S j < List.length groups -> List.length g = size).
Proof.
  intros A items size fuel w Hsize Hfuel.
  destruct (@batches_from A size Hsize items fuel 0 [] w)
    as (groups & Hrun & Hlen & Hcat & Hsz & Hfull); [lia|].
  exists groups. unfold batches. rewrite Hrun.
  split; [reflexivity|].
  split; [rewrite Hlen; unfold groups_left; now rewrite Nat.sub_0_r|].
  split; [exact Hcat|]. split; [exact Hsz | exact Hfull].
Qed.

Lemma batches_partition_witness :
  exists groups,
    batches 6 2 [1; 2; 3; 4; 5] 0 (fresh []) = (Ok groups, fresh [])
    /\ List.length groups = 3
    /\ concat groups = [1; 2; 3; 4; 5].
Proof.
  destruct (@batches_partition nat [1; 2; 3; 4; 5] 2 6 (fresh []))
    as (groups & Hrun & Hlen & Hcat & _).
  - lia.
  - simpl. lia.
  - exists groups. repeat split; assumption.
Defined.

(** The batches of the route: 503 messages make two groups, of 500
    and 3. *)
Lemma batches_503 :
  fst (batches 504 batchSize (seq 0 503) 0 (fresh []))
  = Ok [seq 0 500; seq 500 3].
Proof. vm_compute. reflexivity. Qed.

End Batching.

(* ------------------------------------------------------------------ *)
(** ** Registration                                                     *)
(* ------------------------------------------------------------------ *)

Module Registration.

Import Handlers.

Lemma option_eqb_eq (x y : option string) :
  Store.option_eqb String.eqb x y = true <-> x = y.
Proof.
  destruct x as [a|], y as [b|]; simpl; try (split; congruence).
  rewrite String.eqb_eq. split; congruence.
Qed.

Lemma FcmToken_eqb_eq a b : Store.FcmToken_eqb a b = true <-> a = b.
Proof.
  unfold Store.FcmToken_eqb. rewrite !andb_true_iff.
  rewrite String.eqb_eq, option_eqb_eq, Z.eqb_eq.
  destruct a, b; simpl. split.
  - intros [[-> ->] ->]. reflexivity.
  - intros H. inversion H. auto.
Qed.

(** [$addToSet] never touches the elements already there. *)
Lemma addToSet_keeps e arr r : In r arr -> In r (Store.addToSet e arr).
Proof.
  unfold Store.addToSet. destruct (existsb _ arr); [auto|].
  intros H. apply in_or_app. now left.
Qed.

Lemma addToSet_has e arr : In e (Store.addToSet e arr).
Proof.
  unfold Store.addToSet. destruct (existsb _ arr) eqn:E.
  - apply existsb_exists in E as (r & Hin & Heq).
    apply FcmToken_eqb_eq in Heq. now subst.
  - apply in_or_app. right. now left.
Qed.

(** It adds nothing only when the very same element, device and date
    included, is there. *)
Lemma addToSet_same e arr : In e arr -> Store.addToSet e arr = arr.
Proof.
  intros H. unfold Store.addToSet.
  replace (existsb _ arr) with true; [reflexivity|].
  symmetry. apply existsb_exists. exists e. split; [assumption|].
  now apply FcmToken_eqb_eq.
Qed.

Lemma tokens_of_registered uid e c :
  Store.tokens_of uid (Store.findOneAndUpdate_addToSet uid e c)
  = Store.addToSet e (Store.tokens_of uid c).
Proof.
  unfold Store.tokens_of, Store.findOne.
  induction c as [|d c IH]; simpl.
  - now rewrite String.eqb_refl.
  - destruct (String.eqb (Store.userId d) uid) eqn:E; simpl; now rewrite E.
Qed.

Lemma two_matches {A} (f : A -> bool) (x y : A) l :
  x <> y -> In x l -> In y l -> f x = true -> f y = true ->
  2 <= List.length (filter f l).
Proof.
  intros Hne Hx Hy Hfx Hfy.
  change 2 with (List.length [x; y]). apply NoDup_incl_length.
  - repeat constructor; simpl; intuition.
  - intros z [<- | [<- | []]]; apply filter_In; now split.
Qed.

(** Registering a token again from another device leaves the first record
    as it was and adds a second one. *)
Lemma reregistration_duplicates uid t dev1 dev2 now1 now2 c :
  dev1 <> dev2 ->
  let first := Store.mkFcmToken t dev1 now1 in
  let c2 := Store.findOneAndUpdate_addToSet uid (Store.mkFcmToken t dev2 now2)
              (Store.findOneAndUpdate_addToSet uid first c) in
  In first (Store.tokens_of uid c2)
  /\ 2 <= List.length (Store.records_for uid t c2).
Proof.
  intros Hne first c2. subst c2. unfold Store.records_for.
  rewrite !tokens_of_registered.
  assert (H1 : In first (Store.addToSet (Store.mkFcmToken t dev2 now2)
                           (Store.addToSet first (Store.tokens_of uid c))))
    by apply addToSet_keeps, addToSet_has.
  split; [exact H1|].
  apply (@two_matches _ _ first (Store.mkFcmToken t dev2 now2)).
  - subst first. congruence.
  - exact H1.
  - apply addToSet_has.
  - simpl. apply String.eqb_refl.
  - simpl. apply String.eqb_refl.
Qed.

(** *** What the writes keep of the data model *)

Lemma registered_userIds uid e c u :
  In u (map Store.userId (Store.findOneAndUpdate_addToSet uid e c)) ->
  In u (map Store.userId c) \/ u = uid.
Proof.
  induction c as [|d c IH]; simpl.
  - intros [<- | []]. now right.
  - destruct (String.eqb (Store.userId d) uid); simpl; [tauto|].
    intros [H | H]; [tauto|]. destruct (IH H); tauto.
Qed.

(** The upsert keeps the [userId]s distinct. *)
Lemma registration_keeps_unique_userIds uid e c :
  Store.unique_userIds c ->
  Store.unique_userIds (Store.findOneAndUpdate_addToSet uid e c).
Proof.
  unfold Store.unique_userIds.
  induction c as [|d c IH]; simpl; intros Hu.
  - repeat constructor. intros [].
  - inversion Hu as [|u us Hnotin Hu']; subst.
    destruct (String.eqb (Store.userId d) uid) eqn:E; simpl.
    + now constructor.
    + constructor; [|now apply IH].
      intros Hin. apply registered_userIds in Hin as [Hin | Heq];
        [contradiction|].
      rewrite Heq, String.eqb_refl in E. discriminate.
Qed.

Lemma pull_keeps_unique_tokens t arr :
  NoDup (map Store.token arr) -> NoDup (map Store.token (Store.pull t arr)).
Proof.
  unfold Store.pull. induction arr as [|r arr IH]; simpl; intros Hu;
    [constructor|].
  inversion Hu as [|x xs Hnotin Hu']; subst.
  destruct (negb (String.eqb (Store.token r) t)); simpl; [|now apply IH].
  constructor; [|now apply IH].
  intros Hin. apply Hnotin. apply in_map_iff in Hin as (r' & Hr' & Hin).
  apply filter_In in Hin as [Hin _]. apply in_map_iff. now exists r'.
Qed.

(** A prune removes every record of the token from the user's array. *)
Lemma pull_removes t arr :
  filter (fun r => String.eqb (Store.token r) t) (Store.pull t arr) = [].
Proof.
  unfold Store.pull. induction arr as [|r arr IH]; simpl; [reflexivity|].
  destruct (String.eqb (Store.token r) t) eqn:E; simpl; [exact IH|].
  now rewrite E.
Qed.

(** Registering a token the user does not hold yet keeps the tokens of
    the array distinct; registering one it holds need not, as
    [reregistration_duplicates] shows. *)
Lemma addToSet_new_token e arr :
  NoDup (map Store.token arr) ->
  ~ In (Store.token e) (map Store.token arr) ->
  NoDup (map Store.token (Store.addToSet e arr)).
Proof.
  intros Hu Hnew. unfold Store.addToSet.
  destruct (existsb _ arr); [assumption|].
  rewrite map_app. simpl. apply NoDup_app; [assumption | |].
  - repeat constructor. intros [].
  - intros x Hx [<- | []]. contradiction.
Qed.

Lemma register_token_run env userId fcmToken deviceInfo w :
  register_fails env = false ->
  register_token env userId fcmToken deviceInfo w
  = (Ok Json200_registered,
     mkWorld
       (Store.findOneAndUpdate_addToSet userId
          (Store.mkFcmToken fcmToken deviceInfo (now env)) (db w))
       (calls w ++ [FindOneAndUpdate userId
                      (Store.mkFcmToken fcmToken deviceInfo (now env))])).
Proof.
  intros H. unfold register_token.
  cbv [try_catch bind query record write_db ret throw]. now rewrite H.
Qed.

(** C2. Registering ("u1", "t1") from "phone" and then from "tablet",
    both calls answered 200, leaves two records for "t1" in u1's array:
    the first with its device and date unchanged, the second with the
    new ones. *)
Theorem reregistration_stores_token_twice :
  Store.records_for "u1" "t1" Scenario.store_twice
  = [ Store.mkFcmToken "t1" (Some "phone") 1000;
      Store.mkFcmToken "t1" (Some "tablet") 2000 ]
  /\ Scenario.store_twice
     = [ Store.mkUserToken "u1"
           [ Store.mkFcmToken "t1" (Some "phone") 1000;
             Store.mkFcmToken "t1" (Some "tablet") 2000 ] ]
  /\ calls Scenario.registered_twice
     = [ FindOneAndUpdate "u1" (Store.mkFcmToken "t1" (Some "phone") 1000);
         FindOneAndUpdate "u1" (Store.mkFcmToken "t1" (Some "tablet") 2000) ].
Proof. repeat split. Qed.

End Registration.

(* ------------------------------------------------------------------ *)
(** ** Interleavings of the bulk loop                                   *)
(* ------------------------------------------------------------------ *)

Module Interleaving.

Import Gateway EventLoop.

Lemma every_point_nil Q : every_point Q [].
Proof. intros later e earlier H. now destruct later. Qed.

Lemma every_point_cons Q e tr :
  every_point Q (e :: tr) <-> Q e tr /\ every_point Q tr.
Proof.
  split.
  - intros H. split.
    + now apply (H []).
    + intros later e' earlier E. apply (H (e :: later)). simpl. now f_equal.
  - intros [Hq H] [|x later] e' earlier E; simpl in E; inversion E; subst.
    + exact Hq.
    + now apply (H later).
Qed.

Lemma in_remove_nth {A} (l : list A) j x y :
  nth_error l j = Some x -> In y l -> y = x \/ In y (remove_nth j l).
Proof.
  revert j; induction l as [|a l IH]; intros [|j] Hn Hin; simpl in *;
    try discriminate.
  - inversion Hn; subst. destruct Hin; auto.
  - destruct Hin as [-> | Hin]; [auto|].
    destruct (IH j Hn Hin); auto.
Qed.

Lemma firstn_plus {A} (i n : nat) (l : list A) :
  firstn (i + n) l = firstn i l ++ firstn n (skipn i l).
Proof.
  revert l; induction i as [|i IH]; intros [|a l]; simpl;
    try reflexivity.
  - now rewrite firstn_nil.
  - now rewrite IH.
Qed.

Lemma in_issued i batch e :
  In e (rev (issued i batch)) <->
  exists km, In km batch /\ e = SendIssued i (fst km) (snd km).
Proof.
  rewrite <- in_rev. unfold issued. rewrite in_map_iff.
  split; intros (km & H1 & H2); exists km; auto.
Qed.

Section Machine.

Variable env : Handlers.Env.
Variable size : nat.
Variable messages : list Message.

Lemma sequential_sends_nil : sequential_sends env size messages [].
Proof. repeat split; apply every_point_nil. Qed.

Lemma sequential_sends_inert e tr :
  inert e -> sequential_sends env size messages tr ->
  sequential_sends env size messages (e :: tr).
Proof.
  intros He (Hs & Hp & Hc).
  repeat split; apply every_point_cons; (split; [|assumption]);
    destruct e; simpl in *; tauto.
Qed.

(** Calling the sends of a batch when all the earlier ones settled. *)
Lemma sequential_sends_issue i l tr :
  (forall e, In e l -> exists k m, e = SendIssued i k m) ->
  (forall i1 k m, In (SendIssued i1 k m) tr ->
                  In (SendSettled i1 k (Handlers.gateway env k m)) tr) ->
  (forall i1 k r, In (SendSettled i1 k r) tr -> is_permanent r = true ->
                  exists tok, In (PruneIssued i1 k tok) tr) ->
  sequential_sends env size messages tr ->
  sequential_sends env size messages (l ++ tr).
Proof.
  intros Hl Hsettled Hprunes Hseq.
  induction l as [|e l IH]; [exact Hseq|].
  destruct IH as (Hs & Hp & Hc); [intros e' He'; apply Hl; now right|].
  destruct (Hl e (or_introl eq_refl)) as (k & m & ->).
  simpl. repeat split; apply every_point_cons; (split; [|assumption]);
    simpl; [| |exact I].
  - intros i1 k1 m1 Hin Hlt. apply in_app_or in Hin as [Hin|Hin].
    + destruct (Hl _ (or_intror Hin)) as (k' & m' & E). inversion E. lia.
    + apply in_or_app. right. now apply Hsettled.
  - intros i1 k1 r Hin Hlt Hperm. apply in_app_or in Hin as [Hin|Hin].
    + destruct (Hl _ (or_intror Hin)) as (k' & m' & E). discriminate.
    + destruct (Hprunes i1 k1 r Hin Hperm) as [tok Htok].
      exists tok. apply in_or_app. now right.
Qed.

Lemma expected_of_results :
  Handlers.Json200_sent
    (Z.of_nat (List.length
                 (filter Handlers.not_null
                    (Handlers.answers env (Handlers.indexed 0 messages)))))
    (Z.of_nat (List.length messages)
     - Z.of_nat (List.length
                   (filter Handlers.not_null
                      (Handlers.answers env (Handlers.indexed 0 messages)))))%Z
  = expected_response env messages.
Proof.
  unfold expected_response. rewrite Dispatch.answers_delivered. f_equal.
  pose proof (Dispatch.delivered_plus_failed env
                (Handlers.indexed 0 messages)) as H.
  rewrite Dispatch.indexed_length in H. lia.
Qed.

(** The loop test, entered with every earlier send settled. *)
Lemma loop_test_invariant i s :
  sequential_sends env size messages (trace s) ->
  (forall i1 k r, In (SendSettled i1 k r) (trace s) ->
                  is_permanent r = true ->
                  exists tok, In (PruneIssued i1 k tok) (trace s)) ->
  (forall r, In (Responded r) (trace s) ->
             r = expected_response env messages) ->
  (forall i1 k m, In (SendIssued i1 k m) (trace s) ->
                  In (SendSettled i1 k (Handlers.gateway env k m)) (trace s)) ->
  results s = Handlers.answers env (firstn i (Handlers.indexed 0 messages)) ->
  invariant env size messages (loop_test size messages i s).
Proof.
  intros Hseq Hprunes Hresp Hsettled Hres. unfold loop_test.
  destruct (Nat.ltb_spec i (List.length messages)) as [Hlt|Hge].
  - set (batch := Handlers.indexed i (Handlers.slice messages i (i + size))).
    unfold invariant. simpl.
    split; [|split; [|split; [|split; [|split; [|split]]]]].
    + apply (@sequential_sends_issue i); try assumption.
      intros e He. apply in_issued in He as (km & _ & ->). eauto.
    + intros i1 k r Hin Hperm. apply in_app_or in Hin as [Hin|Hin].
      * apply in_issued in Hin as (km & _ & E). discriminate.
      * destruct (Hprunes i1 k r Hin Hperm) as [tok Htok].
        exists tok. apply in_or_app. now right.
    + intros r Hin. apply in_app_or in Hin as [Hin|Hin].
      * apply in_issued in Hin as (km & _ & E). discriminate.
      * now apply Hresp.
    + reflexivity.
    + exact Hres.
    + intros i1 k m Hin. apply in_app_or in Hin as [Hin|Hin].
      * apply in_issued in Hin as ([k' m'] & Hkm & E). inversion E; subst.
        right. now split.
      * left. apply in_or_app. right. now apply Hsettled.
    + intros km Hkm. apply in_or_app. left. apply in_issued. now exists km.
  - unfold invariant. simpl.
    split; [|split; [|split]]; [| | |exact I].
    + now apply sequential_sends_inert.
    + intros i1 k r [Hin|Hin] Hperm; [discriminate|].
      destruct (Hprunes i1 k r Hin Hperm) as [tok Htok]. exists tok. now right.
    + intros r [Hin|Hin]; [|now apply Hresp].
      inversion Hin; subst r. rewrite Hres.
      rewrite firstn_all2 by (rewrite Dispatch.indexed_length; lia).
      apply expected_of_results.
Qed.

Lemma step_invariant a s s' :
  invariant env size messages s ->
  step env size messages a s = Some s' ->
  invariant env size messages s'.
Proof.
  intros (Hseq & Hprunes & Hresp & Hphase) Hstep.
  destruct a as [|j|j]; unfold step in Hstep.
  - (* Resume *)
    destruct (phase s) as [i|i batch pending| |] eqn:Ephase; try discriminate.
    + destruct Hphase as (-> & Htr & Hres & _).
      inversion Hstep; subst s'. apply loop_test_invariant; try assumption.
      intros i1 k m Hin. rewrite Htr in Hin. destruct Hin.
    + destruct pending as [|p pending]; [|discriminate].
      destruct Hphase as (Hbatch & Hres & Hissued & _).
      inversion Hstep; subst s'. apply loop_test_invariant; simpl;
        try assumption.
      * intros i1 k m Hin. destruct (Hissued i1 k m Hin) as [H|[_ []]].
        exact H.
      * rewrite Hres, Hbatch, Dispatch.indexed_slice, firstn_plus.
        symmetry. apply Dispatch.answers_app.
  - (* Settle *)
    destruct (phase s) as [i|i batch pending| |] eqn:Ephase; try discriminate.
    destruct (nth_error pending j) as [[k m]|] eqn:Enth; [|discriminate].
    destruct Hphase as (Hbatch & Hres & Hissued & Hcalled).
    assert (Hpivot : batch_fully_called size messages
                       (SendSettled i k (Handlers.gateway env k m)) (trace s)).
    { simpl. intros km Hkm. apply Hcalled. now rewrite Hbatch. }
    assert (Hseq1 : sequential_sends env size messages
                      (SendSettled i k (Handlers.gateway env k m) :: trace s)).
    { destruct Hseq as (Hs & Hp & Hc).
      repeat split; apply every_point_cons; (split; [|assumption]);
        simpl; auto. }
    assert (Hissued1 : forall tr',
               (forall e, In e (trace s) -> In e tr') ->
               In (SendSettled i k (Handlers.gateway env k m)) tr' ->
               forall i1 k1 m1, In (SendIssued i1 k1 m1) (trace s) ->
                 In (SendSettled i1 k1 (Handlers.gateway env k1 m1)) tr'
                 \/ (i1 = i /\ In (k1, m1) (remove_nth j pending))).
    { intros tr' Hmono Hnew i1 k1 m1 Hin.
      destruct (Hissued i1 k1 m1 Hin) as [H|[-> H]]; [left; auto|].
      destruct (@in_remove_nth _ pending j (k, m) (k1, m1) Enth H) as [E|H'].
      - inversion E; subst. now left.
      - right. now split. }
    destruct (is_permanent (Handlers.gateway env k m)) eqn:Eperm;
      inversion Hstep; subst s'; unfold invariant; simpl.
    + split; [|split; [|split; [|split; [|split; [|split]]]]].
      * now apply sequential_sends_inert.
      * intros i1 k1 r [Hin|[Hin|Hin]] Hperm; [discriminate| |].
        -- inversion Hin; subst. exists (token m). now left.
        -- destruct (Hprunes i1 k1 r Hin Hperm) as [tok Htok].
           exists tok. right. now right.
      * intros r [Hin|[Hin|Hin]]; [discriminate|discriminate|].
        now apply Hresp.
      * exact Hbatch.
      * exact Hres.
      * intros i1 k1 m1 [Hin|[Hin|Hin]]; [discriminate|discriminate|].
        apply (Hissued1 (PruneIssued i k (token m)
                         :: SendSettled i k (Handlers.gateway env k m)
                         :: trace s)); simpl; auto.
      * intros km Hkm. right. right. now apply Hcalled.
    + split; [|split; [|split; [|split; [|split; [|split]]]]].
      * exact Hseq1.
      * intros i1 k1 r [Hin|Hin] Hperm.
        -- inversion Hin; subst. congruence.
        -- destruct (Hprunes i1 k1 r Hin Hperm) as [tok Htok].
           exists tok. now right.
      * intros r [Hin|Hin]; [discriminate|]. now apply Hresp.
      * exact Hbatch.
      * exact Hres.
      * intros i1 k1 m1 [Hin|Hin]; [discriminate|].
        apply (Hissued1 (SendSettled i k (Handlers.gateway env k m)
                         :: trace s)); simpl; auto.
      * intros km Hkm. right. now apply Hcalled.
  - (* Complete *)
    assert (E : exists i0 k tok,
               nth_error (background s) j = Some (i0, k, tok)
               /\ s' = mkState (if Handlers.prune_fails env k then Crashed
                                else phase s)
                               (results s) (remove_nth j (background s))
                               (PruneDone i0 k tok :: trace s)).
    { destruct (phase s) as [i|i batch [|p pending]| |]; try discriminate;
        destruct (nth_error (background s) j) as [[[i0 k] tok]|];
        try discriminate; inversion Hstep; eauto. }
    clear Hstep. destruct E as (i0 & k & tok & Enth & ->).
    unfold invariant. simpl.
    split; [|split; [|split]].
    + now apply sequential_sends_inert.
    + intros i1 k1 r [Hin|Hin] Hperm; [discriminate|].
      destruct (Hprunes i1 k1 r Hin Hperm) as [tok' Htok].
      exists tok'. now right.
    + intros r [Hin|Hin]; [discriminate|]. now apply Hresp.
    + destruct (Handlers.prune_fails env k); [exact I|].
      destruct (phase s) as [i|i batch pending| |]; [| |exact I|exact I].
      * destruct Hphase as (_ & _ & _ & Hbg). rewrite Hbg in Enth.
        now destruct j.
      * destruct Hphase as (Hbatch & Hres & Hissued & Hcalled).
        repeat split; try assumption.
        -- intros i1 k1 m1 [Hin|Hin]; [discriminate|].
           destruct (Hissued i1 k1 m1 Hin) as [H|H]; [left; now right|].
           now right.
        -- intros km Hkm. right. now apply Hcalled.
Qed.

Lemma init_invariant : invariant env size messages init.
Proof.
  unfold invariant, init. simpl.
  split; [apply sequential_sends_nil|].
  split; [intros i k r []|]. split; [intros r []|]. now repeat split.
Qed.

Lemma exec_invariant sched :
  forall s s', invariant env size messages s -> exec env size messages sched s = Some s' -> invariant env size messages s'.
Proof.
  induction sched as [|a sched IH]; intros s s' Hinv Hexec; simpl in Hexec.
  - inversion Hexec; now subst.
  - destruct (step env size messages a s) as [s1|] eqn:Estep; [|discriminate].
    apply (IH s1); [|assumption]. now apply (@step_invariant a s).
Qed.

End Machine.

Lemma reachable_invariant env size messages s :
  reachable env size messages s -> invariant env size messages s.
Proof.
  intros [sched Hexec].
  apply (@exec_invariant env size messages sched init s);
    [apply init_invariant | exact Hexec].
Qed.

(** Whatever the order in which the promises settle, the response written
    is the one [Handlers] computes. *)
Lemma response_schedule_independent env size messages s r :
  reachable env size messages s ->
  In (Responded r) (trace s) ->
  r = expected_response env messages.
Proof.
  intros Hreach. apply reachable_invariant in Hreach.
  destruct Hreach as (_ & _ & Hresp & _). apply Hresp.
Qed.

Lemma handlers_expected_response env size userIds title body data c :
  1 <= size -> Handlers.lookup_fails env = false ->
  Store.find_in userIds c <> [] ->
  fst (Handlers.send_bulk_with size env userIds title body data
         (Handlers.fresh c))
  = Handlers.Ok
      (expected_response env
         (Handlers.bulk_messages title body data (Store.find_in userIds c))).
Proof.
  intros Hsize Hl Hsome.
  destruct (@Dispatch.bulk_run env size userIds title body data c Hsize Hl
              Hsome) as (w' & -> & _).
  reflexivity.
Qed.

(** A complete run out of array order: same response, and the prune
    completes after the response is written. *)
Lemma out_of_order_run :
  option_map (@trace)
    (exec Scenario.env_up Handlers.batchSize Scenario.messages_three
          Scenario.schedule_three init)
  = Some
      [ PruneDone 0 0 "t1";
        Responded (Handlers.Json200_sent 1 2);
        SendSettled 0 1 (Rejected (Some "messaging/quota-exceeded"));
        PruneIssued 0 0 "t1";
        SendSettled 0 0
          (Rejected (Some "messaging/registration-token-not-registered"));
        SendSettled 0 2 (Resolved "projects/demo/messages/1");
        SendIssued 0 2 (mkMessage (mkNotification "T" "B") [] "t3");
        SendIssued 0 1 (mkMessage (mkNotification "T" "B") [] "t2");
        SendIssued 0 0 (mkMessage (mkNotification "T" "B") [] "t1") ].
Proof. vm_compute. reflexivity. Qed.

(** The boolean test does refute the ordering. *)
Lemma prune_outstanding_refutes i1 k1 tr :
  prune_outstanding_at_next_batch i1 k1 tr = true ->
  ~ prunes_complete_before_next_batch tr.
Proof.
  unfold prunes_complete_before_next_batch.
  induction tr as [|e earlier IH]; simpl; [discriminate|].
  intros Htest Hclaim. apply every_point_cons in Hclaim as [Hhere Hrest].
  apply orb_true_iff in Htest as [Htest|Htest]; [|now apply IH].
  destruct e as [i2 k2 m2| | | |]; try discriminate.
  apply andb_true_iff in Htest as [Htest Hnot].
  apply andb_true_iff in Htest as [Hlt Hissued].
  apply Nat.ltb_lt in Hlt.
  apply existsb_exists in Hissued as (e' & Hin & He').
  destruct e' as [| |i' k' tok| |]; try discriminate.
  simpl in He'. apply andb_true_iff in He' as [Hi Hk].
  apply Nat.eqb_eq in Hi, Hk. subst i' k'.
  specialize (Hhere i1 k1 tok Hin Hlt).
  apply negb_true_iff in Hnot.
  assert (Hdone : existsb (is_prune_done i1 k1) earlier = true).
  { apply existsb_exists. exists (PruneDone i1 k1 tok).
    split; [assumption|]. simpl. now rewrite !Nat.eqb_refl. }
  congruence.
Qed.

Lemma state_501_reached :
  exec Scenario.env_up Handlers.batchSize Scenario.messages_501
       Scenario.schedule_501 init
  = Some Scenario.state_501.
Proof.
  unfold Scenario.state_501.
  destruct (exec Scenario.env_up Handlers.batchSize Scenario.messages_501
                 Scenario.schedule_501 init) eqn:E; [reflexivity|].
  vm_compute in E. discriminate.
Qed.

(** C9, as the specification has it, fails: with 501 messages whose first
    is rejected as unregistered, the 500 sends of the first batch settle,
    the handler calls the send of the second batch, and the prune the
    first batch started has not completed. *)
Lemma prune_in_flight_at_next_batch :
  reachable Scenario.env_up Handlers.batchSize Scenario.messages_501
            Scenario.state_501
  /\ ~ strictly_sequential Scenario.env_up Handlers.batchSize
                           Scenario.messages_501
                           (trace Scenario.state_501).
Proof.
  split.
  - exists Scenario.schedule_501. exact state_501_reached.
  - intros (_ & Hclaim & _). revert Hclaim.
    apply (@prune_outstanding_refutes 0 0). vm_compute. reflexivity.
Qed.

(** C9, amended. In every state a schedule reaches: when a send of a batch
    is called, every send of the earlier batches has settled and every
    prune those sends trigger has been started (not necessarily
    completed); when a send of a batch settles, every send of that batch
    has been called. *)
Theorem batches_sequential_prunes_started :
  forall env size messages s,
    reachable env size messages s ->
    sequential_sends env size messages (trace s).
Proof.
  intros env size messages s Hreach.
  apply reachable_invariant in Hreach. apply Hreach.
Qed.

Lemma batches_sequential_prunes_started_witness :
  sequential_sends Scenario.env_up Handlers.batchSize Scenario.messages_501
                   (trace Scenario.state_501).
Proof.
  apply batches_sequential_prunes_started.
  exists Scenario.schedule_501. exact state_501_reached.
Defined.

End Interleaving.

(* ------------------------------------------------------------------ *)
(** ** What the routes leave in the collection                          *)
(* ------------------------------------------------------------------ *)

Module Effects.

Import Gateway Handlers.

(** *** The three update queries seen through [tokens_of] *)

Lemma tokens_of_updateOne_pull u t c :
  Store.tokens_of u (Store.updateOne_pull u t c)
  = Store.pull t (Store.tokens_of u c).
Proof.
  unfold Store.tokens_of, Store.findOne.
  induction c as [|d c IH]; simpl; [reflexivity|].
  destruct (String.eqb (Store.userId d) u) eqn:E; simpl; now rewrite E.
Qed.

Lemma tokens_of_updateOne_pull_other u u' t c :
  u' <> u ->
  Store.tokens_of u' (Store.updateOne_pull u t c) = Store.tokens_of u' c.
Proof.
  intros Hne. unfold Store.tokens_of, Store.findOne.
  induction c as [|d c IH]; simpl; [reflexivity|].
  destruct (String.eqb (Store.userId d) u) eqn:E; simpl.
  - apply String.eqb_eq in E.
    destruct (String.eqb (Store.userId d) u') eqn:E'; [|reflexivity].
    apply String.eqb_eq in E'. congruence.
  - destruct (String.eqb (Store.userId d) u'); [reflexivity | exact IH].
Qed.

Lemma tokens_of_updateMany_pull u t c :
  Store.tokens_of u (Store.updateMany_pull t c)
  = Store.pull t (Store.tokens_of u c).
Proof.
  unfold Store.tokens_of, Store.findOne, Store.updateMany_pull.
  induction c as [|d c IH]; simpl; [reflexivity|].
  destruct (String.eqb (Store.userId d) u); [reflexivity | exact IH].
Qed.

Lemma tokens_of_registered_other uid u' e c :
  u' <> uid ->
  Store.tokens_of u' (Store.findOneAndUpdate_addToSet uid e c)
  = Store.tokens_of u' c.
Proof.
  intros Hne. unfold Store.tokens_of, Store.findOne.
  induction c as [|d c IH]; simpl.
  - destruct (String.eqb uid u') eqn:E; [|reflexivity].
    apply String.eqb_eq in E. congruence.
  - destruct (String.eqb (Store.userId d) uid) eqn:E; simpl.
    + apply String.eqb_eq in E.
      destruct (String.eqb (Store.userId d) u') eqn:E'; [|reflexivity].
      apply String.eqb_eq in E'. congruence.
    + destruct (String.eqb (Store.userId d) u'); [reflexivity | exact IH].
Qed.

Lemma without_nil arr : Store.without [] arr = arr.
Proof.
  unfold Store.without. induction arr as [|r arr IH]; simpl;
    [reflexivity | f_equal; exact IH].
Qed.

Lemma without_pull t removed arr :
  Store.without removed (Store.pull t arr)
  = Store.without (t :: removed) arr.
Proof.
  unfold Store.without, Store.pull.
  induction arr as [|r arr IH]; simpl; [reflexivity|].
  destruct (String.eqb (Store.token r) t); simpl; [exact IH|].
  destruct (existsb _ removed); simpl; [exact IH | f_equal; exact IH].
Qed.

Lemma without_in removed arr r :
  In r (Store.without removed arr) <->
  In r arr /\ ~ In (Store.token r) removed.
Proof.
  unfold Store.without. rewrite filter_In, negb_true_iff.
  split; intros [Hin H]; (split; [assumption|]).
  - intros Hrem. assert (E : existsb (String.eqb (Store.token r)) removed = true).
    { apply existsb_exists. exists (Store.token r). split; [assumption|].
      apply String.eqb_refl. }
    congruence.
  - destruct (existsb _ removed) eqn:E; [|reflexivity].
    apply existsb_exists in E as (t & Ht & Heq).
    apply String.eqb_eq in Heq. subst t. contradiction.
Qed.

(** *** The prunes of a batch, one after the other *)

Section Prunes.

Variable env : Env.

Lemma apply_prunes_app pull ims ims' c :
  apply_prunes pull env (ims ++ ims') c
  = apply_prunes pull env ims' (apply_prunes pull env ims c).
Proof. apply fold_left_app. Qed.

Lemma removed_tokens_app ims ims' :
  removed_tokens env (ims ++ ims')
  = removed_tokens env ims ++ removed_tokens env ims'.
Proof. apply flat_map_app. Qed.

(** A removal that acts on a user's array as [$pull] does. *)
Lemma tokens_of_apply_prunes pull u :
  (forall t c, Store.tokens_of u (pull t c)
               = Store.pull t (Store.tokens_of u c)) ->
  forall ims c,
    Store.tokens_of u (apply_prunes pull env ims c)
    = Store.without (removed_tokens env ims) (Store.tokens_of u c).
Proof.
  intros Hpull ims. induction ims as [|km ims IH]; intros c; simpl.
  - symmetry. apply without_nil.
  - fold (apply_prunes pull env ims
            (if prune_succeeds env km then pull (token (snd km)) c else c)).
    rewrite IH. destruct (prune_succeeds env km); simpl; [|reflexivity].
    rewrite Hpull. apply without_pull.
Qed.

(** A removal that leaves a user's array alone. *)
Lemma tokens_of_apply_prunes_other pull u :
  (forall t c, Store.tokens_of u (pull t c) = Store.tokens_of u c) ->
  forall ims c,
    Store.tokens_of u (apply_prunes pull env ims c) = Store.tokens_of u c.
Proof.
  intros Hpull ims. induction ims as [|km ims IH]; intros c; simpl;
    [reflexivity|].
  fold (apply_prunes pull env ims
          (if prune_succeeds env km then pull (token (snd km)) c else c)).
  rewrite IH. destruct (prune_succeeds env km); [apply Hpull | reflexivity].
Qed.

Lemma removed_tokens_permanent ims t :
  In t (removed_tokens env ims) -> In t (permanent_tokens env ims).
Proof.
  unfold removed_tokens, permanent_tokens. rewrite !in_flat_map.
  intros (km & Hin & Ht). exists km. split; [assumption|].
  unfold prune_succeeds in Ht.
  destruct (is_permanent _); [|destruct Ht].
  destruct (negb _); [exact Ht | destruct Ht].
Qed.

Lemma removed_tokens_none ims :
  (forall km, In km ims ->
              is_permanent (gateway env (fst km) (snd km)) = false) ->
  removed_tokens env ims = [] /\ permanent_tokens env ims = [].
Proof.
  intros H. unfold removed_tokens, permanent_tokens, prune_succeeds.
  induction ims as [|km ims IH]; simpl; [now split|].
  rewrite (H km) by now left. simpl. apply IH.
  intros km' Hkm'. apply H. now right.
Qed.

Lemma apply_prunes_none pull ims c :
  (forall km, In km ims ->
              is_permanent (gateway env (fst km) (snd km)) = false) ->
  apply_prunes pull env ims c = c.
Proof.
  intros H. unfold apply_prunes, prune_succeeds.
  induction ims as [|km ims IH]; simpl; [reflexivity|].
  rewrite (H km) by now left. simpl. apply IH.
  intros km' Hkm'. apply H. now right.
Qed.

(** *** The worlds the promises of a batch leave *)

Lemma settle_all_caught_world ims : forall w,
  settle_all (map (fun km => send_caught env (fst km) (snd km)) ims) w
  = (Ok (answers env ims),
     mkWorld (apply_prunes Store.updateMany_pull env ims (db w))
             (calls w ++ background_prunes_of env ims)).
Proof.
  induction ims as [|[k m] ims IH]; intros w; simpl.
  - unfold ret. rewrite app_nil_r. now destruct w.
  - unfold prune_succeeds, is_permanent, response_of. simpl.
    destruct (gateway env k m) as [id|code]; simpl.
    + now rewrite IH.
    + destruct (invalid_token_code code); simpl.
      * unfold bind, background, record, ret, write_db, bind; simpl.
        destruct (prune_fails env k); simpl; rewrite IH; simpl;
          now rewrite <- !app_assoc.
      * unfold bind, ret; simpl. now rewrite IH.
Qed.

Lemma settle_all_awaited_world userId ims : forall w,
  settle_all (map (fun km => send_one env userId (fst km) (snd km)) ims) w
  = ((if existsb (escalates env) ims then Throw StoreUnavailable
      else Ok (answers env ims)),
     mkWorld (apply_prunes (Store.updateOne_pull userId) env ims (db w))
             (calls w ++ prunes_of (UpdateOne userId) env ims)).
Proof.
  induction ims as [|[k m] ims IH]; intros w; simpl.
  - unfold ret. rewrite app_nil_r. now destruct w.
  - unfold escalates at 1, prune_succeeds, is_permanent, response_of; simpl.
    destruct (gateway env k m) as [id|code]; simpl.
    + rewrite IH. now destruct (existsb (escalates env) ims).
    + destruct (invalid_token_code code); simpl.
      * unfold bind, query, record, ret, write_db, throw, bind; simpl.
        destruct (prune_fails env k); simpl; rewrite IH; simpl;
          rewrite <- app_assoc; simpl;
          now destruct (existsb (escalates env) ims).
      * unfold bind, ret; simpl. rewrite IH.
        now destruct (existsb (escalates env) ims).
Qed.

Lemma Promise_all_caught_db ims w :
  db (snd (Promise_all (map (fun km => send_caught env (fst km) (snd km)) ims)
                       w))
  = apply_prunes Store.updateMany_pull env ims (db w).
Proof.
  unfold Promise_all, bind.
  rewrite (Dispatch.issue_all_sends
             (fun km => send_caught env (fst km) (snd km))) by reflexivity.
  now rewrite settle_all_caught_world.
Qed.

Lemma Promise_all_awaited_db userId ims w :
  db (snd (Promise_all
             (map (fun km => send_one env userId (fst km) (snd km)) ims) w))
  = apply_prunes (Store.updateOne_pull userId) env ims (db w).
Proof.
  unfold Promise_all, bind.
  rewrite (Dispatch.issue_all_sends
             (fun km => send_one env userId (fst km) (snd km))) by reflexivity.
  now rewrite settle_all_awaited_world.
Qed.

End Prunes.

(** *** The routes *)

Lemma bulk_loop_db env size messages (Hsize : 1 <= size) :
  forall fuel i results w,
    List.length messages - i < fuel ->
    db (snd (for_batches fuel size messages i (send_batch env) results w))
    = apply_prunes Store.updateMany_pull env
        (skipn i (indexed 0 messages)) (db w).
Proof.
  induction fuel as [|fuel IH]; intros i results w Hfuel; [lia|].
  simpl. destruct (Nat.ltb_spec i (List.length messages)) as [Hlt|Hge].
  - unfold bind at 1, send_batch at 1, bind at 1.
    pose proof (Promise_all_caught_db env
                  (indexed i (slice messages i (i + size))) w) as Hdb.
    destruct (Dispatch.Promise_all_caught env
                (indexed i (slice messages i (i + size))) w) as [d' E].
    rewrite E in Hdb |- *. simpl in Hdb. subst d'. unfold ret at 1.
    rewrite IH by lia. simpl.
    rewrite Dispatch.indexed_slice, <- apply_prunes_app.
    now rewrite Dispatch.chunk_step.
  - rewrite skipn_all2 by (rewrite Dispatch.indexed_length; lia).
    reflexivity.
Qed.

Lemma bulk_db env size userIds title body data c :
  1 <= size ->
  db (snd (send_bulk_with size env userIds title body data (fresh c)))
  = if lookup_fails env then c
    else apply_prunes Store.updateMany_pull env
           (indexed 0 (bulk_messages title body data
                                     (Store.find_in userIds c))) c.
Proof.
  intros Hsize. destruct (lookup_fails env) eqn:Hl.
  - now rewrite Dispatch.bulk_lookup_down.
  - destruct (Store.find_in userIds c) as [|d ds] eqn:E.
    + now rewrite Dispatch.bulk_no_documents.
    + rewrite <- E.
      assert (Hlen : (List.length (Store.find_in userIds c) =? 0) = false)
        by (rewrite E; reflexivity).
      set (messages := bulk_messages title body data
                                     (Store.find_in userIds c)).
      pose proof (@bulk_loop_db env size messages Hsize
                    (S (List.length messages)) 0 []
                    (mkWorld c [Find userIds])) as Hdb.
      destruct (@Dispatch.bulk_loop env size messages Hsize
                  (S (List.length messages)) 0 []
                  (mkWorld c [Find userIds])) as (w' & Hrun & _); [lia|].
      rewrite Hrun in Hdb. simpl in Hdb.
      unfold send_bulk_with. Dispatch.step_monad. rewrite Hl, Hlen.
      fold messages. rewrite Hrun. simpl. apply Hdb. lia.
Qed.

Lemma single_db env userId title body data c :
  db (snd (send_notification env userId title body data (fresh c)))
  = if lookup_fails env then c
    else apply_prunes (Store.updateOne_pull userId) env
           (indexed 0 (map (build_message title body data)
                           (Store.tokens_of userId c))) c.
Proof.
  destruct (lookup_fails env) eqn:Hl.
  - now rewrite Dispatch.single_lookup_down.
  - destruct (Store.tokens_of userId c) as [|r rs] eqn:E.
    + now rewrite Dispatch.single_no_tokens.
    + rewrite <- E. unfold Store.tokens_of in *.
      destruct (Store.findOne userId c) as [d|] eqn:Ed; [|discriminate].
      assert (Hlen : (List.length (Store.fcmTokens d) =? 0) = false)
        by (rewrite E; reflexivity).
      set (messages := map (build_message title body data)
                           (Store.fcmTokens d)).
      pose proof (Promise_all_awaited_db env userId (indexed 0 messages)
                    (mkWorld c [FindOne userId])) as Hdb.
      destruct (Dispatch.Promise_all_awaited env userId (indexed 0 messages)
                  (mkWorld c [FindOne userId])) as [d' Hrun].
      rewrite Hrun in Hdb. simpl in Hdb.
      unfold send_notification. Dispatch.step_monad. rewrite Hl, Ed, Hlen.
      fold messages. rewrite Hrun.
      destruct (existsb (escalates env) (indexed 0 messages)); exact Hdb.
Qed.

Lemma not_permanent r :
  classify r <> PermanentInvalidToken -> is_permanent r = false.
Proof.
  intros H. destruct (is_permanent r) eqn:E; [|reflexivity].
  apply Dispatch.classify_permanent in E. contradiction.
Qed.

(** X1. After /send-notification (the lookup succeeding), the records
    stored for the user are those it had whose token was not pruned, a
    token being pruned when a send to it was rejected with an
    invalid-token code and the removal write succeeded; the records of
    every other user are unchanged, even when they hold the same token. *)
Theorem single_route_prunes_own_user :
  forall env userId title body data c,
    lookup_fails env = false ->
    let ims := indexed 0 (map (build_message title body data)
                              (Store.tokens_of userId c)) in
    let c' := db (snd (send_notification env userId title body data
                                         (fresh c))) in
    Store.tokens_of userId c'
    = Store.without (removed_tokens env ims) (Store.tokens_of userId c)
    /\ (forall u, u <> userId -> Store.tokens_of u c' = Store.tokens_of u c).
Proof.
  intros env userId title body data c Hl ims c'. subst c'.
  rewrite single_db, Hl. fold ims. split.
  - apply tokens_of_apply_prunes. intros t c0.
    apply tokens_of_updateOne_pull.
  - intros u Hu. apply tokens_of_apply_prunes_other. intros t c0.
    now apply tokens_of_updateOne_pull_other.
Qed.

Lemma single_route_prunes_own_user_witness :
  Store.tokens_of "u1"
    (db (snd (send_notification Scenario.env_up "u1" "T" "B" None
                                (fresh Scenario.store_shared))))
  = [Scenario.rec "t2"]
  /\ Store.tokens_of "u9"
       (db (snd (send_notification Scenario.env_up "u1" "T" "B" None
                                   (fresh Scenario.store_shared))))
     = [Scenario.rec "t1"; Scenario.rec "t9"].
Proof.
  destruct (single_route_prunes_own_user Scenario.env_up "u1" "T" "B" None
              Scenario.store_shared eq_refl) as [Hown Hother].
  split.
  - rewrite Hown. reflexivity.
  - rewrite (Hother "u9") by discriminate. reflexivity.
Defined.

Lemma removed_when_accepted env ims :
  prunes_accepted env ims ->
  removed_tokens env ims = permanent_tokens env ims.
Proof.
  unfold prunes_accepted, removed_tokens, permanent_tokens, prune_succeeds.
  induction ims as [|[k m] ims IH]; intros H; simpl; [reflexivity|].
  rewrite IH by (intros k' m' Hin; apply H; now right). f_equal.
  destruct (is_permanent (gateway env k m)) eqn:E; [|reflexivity].
  now rewrite (H k m (or_introl eq_refl) E).
Qed.

(** X2. After /send-bulk-notification, the lookup succeeding and none of
    the removal writes it starts being rejected, once those writes have
    completed the records stored for every user of the collection,
    requested or not, are those it had whose token was not rejected with
    an invalid-token code: the removal is by token value across all
    users. *)
Theorem bulk_route_prunes_every_user :
  forall env userIds title body data c,
    lookup_fails env = false ->
    let ims := indexed 0 (bulk_messages title body data
                                        (Store.find_in userIds c)) in
    prunes_accepted env ims ->
    let c' := db (snd (send_bulk_notification env userIds title body data
                                              (fresh c))) in
    forall u,
      Store.tokens_of u c'
      = Store.without (permanent_tokens env ims) (Store.tokens_of u c).
Proof.
  intros env userIds title body data c Hl ims Hacc c' u. subst c'.
  unfold send_bulk_notification.
  rewrite (bulk_db _ _ _ _ _ _ Dispatch.batchSize_positive), Hl. fold ims.
  rewrite <- (removed_when_accepted Hacc).
  apply tokens_of_apply_prunes. intros t c0.
  apply tokens_of_updateMany_pull.
Qed.

Lemma bulk_route_prunes_every_user_witness :
  Store.tokens_of "u9"
    (db (snd (send_bulk_notification Scenario.env_up ["u1"] "T" "B" None
                                     (fresh Scenario.store_shared))))
  = [Scenario.rec "t9"].
Proof.
  rewrite (@bulk_route_prunes_every_user Scenario.env_up ["u1"] "T" "B" None
             Scenario.store_shared eq_refl (fun k m _ _ => eq_refl) "u9").
  reflexivity.
Defined.

(** X3. When no send of the request is rejected with an invalid-token
    code (every send is delivered or fails otherwise), either route
    leaves the collection exactly as it was. *)
Theorem no_invalid_token_no_store_change :
  forall env title body data c,
    (forall userId,
       (forall k m,
          In (k, m) (indexed 0 (map (build_message title body data)
                                    (Store.tokens_of userId c))) ->
          classify (gateway env k m) <> PermanentInvalidToken) ->
       db (snd (send_notification env userId title body data (fresh c))) = c)
    /\
    (forall userIds,
       (forall k m,
          In (k, m) (indexed 0 (bulk_messages title body data
                                              (Store.find_in userIds c))) ->
          classify (gateway env k m) <> PermanentInvalidToken) ->
       db (snd (send_bulk_notification env userIds title body data (fresh c)))
       = c).
Proof.
  intros env title body data c. split.
  - intros userId Hno. rewrite single_db.
    destruct (lookup_fails env); [reflexivity|].
    apply apply_prunes_none. intros [k m] Hin. apply not_permanent.
    now apply Hno.
  - intros userIds Hno. unfold send_bulk_notification.
    rewrite (bulk_db _ _ _ _ _ _ Dispatch.batchSize_positive).
    destruct (lookup_fails env); [reflexivity|].
    apply apply_prunes_none. intros [k m] Hin. apply not_permanent.
    now apply Hno.
Qed.

Lemma no_invalid_token_no_store_change_witness :
  db (snd (send_notification Scenario.env_transient "u1" "T" "B" None
                             (fresh Scenario.store_three)))
  = Scenario.store_three
  /\ db (snd (send_bulk_notification Scenario.env_transient ["u1"; "u2"]
                                     "T" "B" None
                                     (fresh Scenario.store_three)))
     = Scenario.store_three.
Proof.
  destruct (no_invalid_token_no_store_change Scenario.env_transient "T" "B"
              None Scenario.store_three) as [Hone Hmany].
  split.
  - apply Hone. intros k m Hin.
    simpl in Hin. destruct Hin as [H | [H | [H | []]]];
      inversion H; subst; simpl; discriminate.
  - apply Hmany. intros k m Hin.
    simpl in Hin. destruct Hin as [H | [H | [H | []]]];
      inversion H; subst; simpl; discriminate.
Defined.

(** X4. With the lookup succeeding, /send-notification issues exactly
    one removal write per send rejected with an invalid-token code, for
    that send's token, whatever becomes of the other sends and of the
    writes themselves; so does /send-bulk-notification when none of the
    removal writes it starts is rejected.  The order of the writes is
    that of the rejections and is left open. *)
Theorem one_prune_per_invalid_token :
  forall env title body data c,
    lookup_fails env = false ->
    (forall userId,
       Permutation
         (pruned (snd (send_notification env userId title body data
                                         (fresh c))))
         (permanent_tokens env
            (indexed 0 (map (build_message title body data)
                            (Store.tokens_of userId c)))))
    /\
    (forall userIds,
       prunes_accepted env
         (indexed 0 (bulk_messages title body data
                                   (Store.find_in userIds c))) ->
       Permutation
         (pruned (snd (send_bulk_notification env userIds title body data
                                              (fresh c))))
         (permanent_tokens env
            (indexed 0 (bulk_messages title body data
                                      (Store.find_in userIds c))))).
Proof.
  intros env title body data c Hl. split.
  - intros userId. destruct (Store.tokens_of userId c) as [|r rs] eqn:E.
    + rewrite Dispatch.single_no_tokens by assumption. constructor.
    + destruct (@Dispatch.single_run env userId title body data c Hl)
        as (w' & -> & _ & Hp & _); [congruence|].
      simpl. rewrite Hp, E. apply Permutation_refl.
  - intros userIds _. unfold send_bulk_notification.
    destruct (Store.find_in userIds c) as [|d ds] eqn:E.
    + rewrite Dispatch.bulk_no_documents by assumption. constructor.
    + destruct (@Dispatch.bulk_run env batchSize userIds title body data c
                  Dispatch.batchSize_positive Hl)
        as (w' & -> & _ & Hp & _); [congruence|].
      simpl. rewrite Hp, E. apply Permutation_refl.
Qed.

Lemma one_prune_per_invalid_token_witness :
  Permutation
    (pruned (snd (send_notification Scenario.env_prune_down "u1" "T" "B" None
                                    (fresh Scenario.store_three))))
    ["t1"]
  /\ Permutation
       (pruned (snd (send_bulk_notification Scenario.env_up ["u1"; "u9"] "T"
                                            "B" None
                                            (fresh Scenario.store_shared))))
       ["t1"].
Proof.
  split.
  - apply (proj1 (one_prune_per_invalid_token Scenario.env_prune_down "T" "B"
                    None Scenario.store_three eq_refl) "u1").
  - apply (proj2 (one_prune_per_invalid_token Scenario.env_up "T" "B" None
                    Scenario.store_shared eq_refl) ["u1"; "u9"]).
    intros k m _ _. reflexivity.
Defined.

(** X5. With the lookup succeeding, /send-notification hands the gateway
    one message per record stored for the user, in stored order, each
    with the request's title, body and data (or no data): every token is
    sent to even when another send fails or a removal write makes the
    response a 500. *)
Theorem single_route_sends_to_every_token :
  forall env userId title body data c,
    lookup_fails env = false ->
    sends (snd (send_notification env userId title body data (fresh c)))
    = map (fun tokenInfo =>
             mkMessage (mkNotification title body)
                       (match data with Some d => d | None => [] end)
                       (Store.token tokenInfo))
          (Store.tokens_of userId c).
Proof.
  intros env userId title body data c Hl.
  destruct (Store.tokens_of userId c) as [|r rs] eqn:E.
  - now rewrite Dispatch.single_no_tokens.
  - destruct (@Dispatch.single_run env userId title body data c Hl)
      as (w' & -> & Hs & _); [congruence|].
    simpl. now rewrite Hs, E.
Qed.

Lemma single_route_sends_to_every_token_witness :
  fst (send_notification Scenario.env_prune_down "u1" "T" "B" None
                         (fresh Scenario.store_three))
  = Ok (Json500 StoreUnavailable)
  /\ map token
         (sends (snd (send_notification Scenario.env_prune_down "u1" "T" "B"
                                        None (fresh Scenario.store_three))))
     = ["t1"; "t2"; "t3"].
Proof.
  split; [reflexivity|].
  rewrite (single_route_sends_to_every_token Scenario.env_prune_down "u1" "T"
             "B" None Scenario.store_three eq_refl).
  reflexivity.
Defined.

End Effects.

(* ------------------------------------------------------------------ *)
(** ** Documents and records across the writes                          *)
(* ------------------------------------------------------------------ *)

Module Upsert.

Import Gateway Handlers.

Lemma userIds_updateOne_pull u t c :
  map Store.userId (Store.updateOne_pull u t c) = map Store.userId c.
Proof.
  induction c as [|d c IH]; simpl; [reflexivity|].
  destruct (String.eqb (Store.userId d) u); simpl; congruence.
Qed.

Lemma userIds_updateMany_pull t c :
  map Store.userId (Store.updateMany_pull t c) = map Store.userId c.
Proof.
  unfold Store.updateMany_pull. rewrite map_map. reflexivity.
Qed.

Lemma userIds_apply_prunes pull env :
  (forall t c, map Store.userId (pull t c) = map Store.userId c) ->
  forall ims c,
    map Store.userId (apply_prunes pull env ims c) = map Store.userId c.
Proof.
  intros Hpull ims. induction ims as [|km ims IH]; intros c; simpl;
    [reflexivity|].
  fold (apply_prunes pull env ims
          (if prune_succeeds env km then pull (token (snd km)) c else c)).
  rewrite IH. destruct (prune_succeeds env km); [apply Hpull | reflexivity].
Qed.

Lemma userIds_registered uid e c :
  map Store.userId (Store.findOneAndUpdate_addToSet uid e c)
  = match Store.findOne uid c with
    | Some _ => map Store.userId c
    | None => map Store.userId c ++ [uid]
    end.
Proof.
  unfold Store.findOne. induction c as [|d c IH]; simpl; [reflexivity|].
  destruct (String.eqb (Store.userId d) uid); simpl; [reflexivity|].
  rewrite IH. now destruct (find _ c).
Qed.

Lemma register_db env userId fcmToken deviceInfo w :
  db (snd (register_token env userId fcmToken deviceInfo w))
  = if register_fails env then db w
    else Store.findOneAndUpdate_addToSet userId
           (Store.mkFcmToken fcmToken deviceInfo (now env)) (db w).
Proof.
  destruct (register_fails env) eqn:E.
  - unfold register_token.
    cbv [try_catch bind query record write_db ret throw]. now rewrite E.
  - now rewrite Registration.register_token_run.
Qed.

(** X6. A successful /register-token answers 200 and stores a record
    with the token, the device and the current date in the user's array;
    it removes none of the user's records and leaves the records of every
    other user as they were. *)
Theorem registration_adds_record :
  forall env userId fcmToken deviceInfo c,
    register_fails env = false ->
    let run := register_token env userId fcmToken deviceInfo (fresh c) in
    fst run = Ok Json200_registered
    /\ In (Store.mkFcmToken fcmToken deviceInfo (now env))
          (Store.tokens_of userId (db (snd run)))
    /\ (forall r, In r (Store.tokens_of userId c) ->
                  In r (Store.tokens_of userId (db (snd run))))
    /\ (forall u, u <> userId ->
                  Store.tokens_of u (db (snd run)) = Store.tokens_of u c).
Proof.
  intros env userId fcmToken deviceInfo c Hok run. subst run.
  rewrite Registration.register_token_run by assumption. simpl.
  split; [reflexivity|]. rewrite Registration.tokens_of_registered.
  split; [apply Registration.addToSet_has|].
  split; [intros r; apply Registration.addToSet_keeps|].
  intros u Hu. now apply Effects.tokens_of_registered_other.
Qed.

Lemma registration_adds_record_witness :
  In (Store.mkFcmToken "t4" (Some "phone") 0)
     (Store.tokens_of "u1"
        (db (snd (register_token Scenario.env_up "u1" "t4" (Some "phone")
                                 (fresh Scenario.store_three)))))
  /\ Store.tokens_of "u2"
       (db (snd (register_token Scenario.env_up "u1" "t4" (Some "phone")
                                (fresh Scenario.store_three))))
     = [].
Proof.
  destruct (registration_adds_record Scenario.env_up "u1" "t4" (Some "phone")
              Scenario.store_three eq_refl) as (_ & Hnew & _ & Hother).
  split; [exact Hnew|].
  rewrite (Hother "u2") by discriminate. reflexivity.
Defined.

(** X7. /register-token is an upsert: for a user without a document it
    appends one document, holding the new record alone; for a user with a
    document it adds no document.  In both cases the other documents keep
    their place. *)
Theorem registration_upserts :
  forall env userId fcmToken deviceInfo c,
    register_fails env = false ->
    let c' := db (snd (register_token env userId fcmToken deviceInfo
                                      (fresh c))) in
    (Store.findOne userId c = None ->
     map Store.userId c' = map Store.userId c ++ [userId]
     /\ Store.tokens_of userId c'
        = [Store.mkFcmToken fcmToken deviceInfo (now env)])
    /\ (Store.findOne userId c <> None ->
        map Store.userId c' = map Store.userId c).
Proof.
  intros env userId fcmToken deviceInfo c Hok c'. subst c'.
  rewrite register_db, Hok. simpl. split.
  - intros Hnone. rewrite userIds_registered, Hnone. split; [reflexivity|].
    rewrite Registration.tokens_of_registered.
    unfold Store.tokens_of. now rewrite Hnone.
  - intros Hsome. rewrite userIds_registered.
    now destruct (Store.findOne userId c).
Qed.

Lemma registration_upserts_witness :
  map Store.userId
      (db (snd (register_token Scenario.env_up "u3" "t7" None
                               (fresh Scenario.store_three))))
  = ["u1"; "u2"; "u3"]
  /\ map Store.userId
         (db (snd (register_token Scenario.env_up "u2" "t7" None
                                  (fresh Scenario.store_three))))
     = ["u1"; "u2"].
Proof.
  split.
  - apply (proj1 (registration_upserts Scenario.env_up "u3" "t7" None
                    Scenario.store_three eq_refl)).
    reflexivity.
  - apply (proj2 (registration_upserts Scenario.env_up "u2" "t7" None
                    Scenario.store_three eq_refl)).
    discriminate.
Defined.

Lemma records_absent uid t c :
  Store.records_for uid t c = [] <->
  ~ In t (map Store.token (Store.tokens_of uid c)).
Proof.
  unfold Store.records_for.
  induction (Store.tokens_of uid c) as [|r arr IH]; simpl; [tauto|].
  destruct (String.eqb (Store.token r) t) eqn:E.
  - apply String.eqb_eq in E. split; [discriminate | tauto].
  - apply String.eqb_neq in E. rewrite IH. tauto.
Qed.

Lemma registered_documents uid e c d :
  In d (Store.findOneAndUpdate_addToSet uid e c) ->
  In d c
  \/ Store.fcmTokens d = Store.addToSet e (Store.tokens_of uid c).
Proof.
  unfold Store.tokens_of, Store.findOne.
  induction c as [|d0 c IH]; simpl.
  - intros [<- | []]. now right.
  - destruct (String.eqb (Store.userId d0) uid); simpl.
    + intros [<- | H]; [now right | tauto].
    + intros [<- | H]; [tauto|]. destruct (IH H); tauto.
Qed.

(** X8. Registering a token the user does not hold yet leaves exactly one
    record for it, with the device and date of the request, and keeps the
    tokens of every document distinct if they were. *)
Theorem first_registration_of_token :
  forall env userId fcmToken deviceInfo c,
    register_fails env = false ->
    Store.records_for userId fcmToken c = [] ->
    let c' := db (snd (register_token env userId fcmToken deviceInfo
                                      (fresh c))) in
    Store.records_for userId fcmToken c'
    = [Store.mkFcmToken fcmToken deviceInfo (now env)]
    /\ (Store.unique_tokens c -> Store.unique_tokens c').
Proof.
  intros env userId fcmToken deviceInfo c Hok Habsent c'. subst c'.
  rewrite register_db, Hok. simpl.
  set (e := Store.mkFcmToken fcmToken deviceInfo (now env)).
  assert (Hnew : Store.addToSet e (Store.tokens_of userId c)
                 = Store.tokens_of userId c ++ [e]).
  { unfold Store.addToSet. destruct (existsb _ _) eqn:E; [|reflexivity].
    apply existsb_exists in E as (r & Hin & Heq).
    apply Registration.FcmToken_eqb_eq in Heq. subst r.
    apply records_absent in Habsent. exfalso. apply Habsent.
    apply in_map_iff. now exists e. }
  split.
  - unfold Store.records_for in *.
    rewrite Registration.tokens_of_registered, Hnew, filter_app, Habsent.
    simpl. now rewrite String.eqb_refl.
  - intros Hu d Hd. apply registered_documents in Hd as [Hd | Hd];
      [now apply Hu|].
    rewrite Hd. apply Registration.addToSet_new_token.
    + unfold Store.tokens_of. destruct (Store.findOne userId c) as [d0|] eqn:E;
        [|constructor].
      apply Hu. unfold Store.findOne in E. now apply find_some in E.
    + now apply records_absent.
Qed.

Lemma first_registration_of_token_witness :
  Store.records_for "u1" "t4"
    (db (snd (register_token Scenario.env_up "u1" "t4" (Some "phone")
                             (fresh Scenario.store_three))))
  = [Store.mkFcmToken "t4" (Some "phone") 0]
  /\ Store.unique_tokens
       (db (snd (register_token Scenario.env_up "u1" "t4" (Some "phone")
                                (fresh Scenario.store_three)))).
Proof.
  destruct (first_registration_of_token Scenario.env_up "u1" "t4"
              (Some "phone") Scenario.store_three eq_refl eq_refl)
    as [Hone Hunique].
  split; [exact Hone|].
  apply Hunique. exact Resolution.store_three_unique_tokens.
Defined.

(** X9. No route ever breaks the unique index on userId, and the two send
    routes never add or delete a document: a user whose last token is
    pruned keeps a document with an empty array. *)
Theorem routes_keep_documents :
  forall env title body data c,
    (forall userId,
       map Store.userId
           (db (snd (send_notification env userId title body data (fresh c))))
       = map Store.userId c)
    /\ (forall userIds,
          map Store.userId
              (db (snd (send_bulk_notification env userIds title body data
                                               (fresh c))))
          = map Store.userId c)
    /\ (forall userId fcmToken deviceInfo,
          Store.unique_userIds c ->
          Store.unique_userIds
            (db (snd (register_token env userId fcmToken deviceInfo
                                     (fresh c))))).
Proof.
  intros env title body data c. split; [|split].
  - intros userId. rewrite Effects.single_db.
    destruct (lookup_fails env); [reflexivity|].
    apply userIds_apply_prunes. intros t c0. apply userIds_updateOne_pull.
  - intros userIds. unfold send_bulk_notification.
    rewrite (Effects.bulk_db _ _ _ _ _ _ Dispatch.batchSize_positive).
    destruct (lookup_fails env); [reflexivity|].
    apply userIds_apply_prunes. apply userIds_updateMany_pull.
  - intros userId fcmToken deviceInfo Hu. rewrite register_db.
    destruct (register_fails env); [exact Hu|].
    now apply Registration.registration_keeps_unique_userIds.
Qed.

Lemma routes_keep_documents_witness :
  Store.unique_userIds
    (db (snd (register_token Scenario.env_up "u3" "t7" None
                             (fresh Scenario.store_three)))).
Proof.
  apply (proj2 (proj2 (routes_keep_documents Scenario.env_up "T" "B" None
                         Scenario.store_three))).
  exact Resolution.store_three_unique_userIds.
Defined.

End Upsert.

(* ------------------------------------------------------------------ *)
(** ** Which response, when                                             *)
(* ------------------------------------------------------------------ *)

Module Responses.

Import Gateway Handlers.

Lemma escalates_exists env ims :
  existsb (escalates env) ims = true <->
  exists k m, In (k, m) ims /\ is_permanent (gateway env k m) = true
              /\ prune_fails env k = true.
Proof.
  rewrite existsb_exists. unfold escalates. split.
  - intros ([k m] & Hin & H). apply andb_true_iff in H as [Hp Hf].
    now exists k, m.
  - intros (k & m & Hin & Hp & Hf). exists (k, m). split; [assumption|].
    simpl. now rewrite Hp, Hf.
Qed.

(** X10. When none of the removal writes it starts is rejected,
    /send-bulk-notification answers, and with one status: 500 exactly
    when the lookup fails, 404 exactly when the lookup succeeds and finds
    no document, 200 otherwise; no rejection by the gateway changes the
    status. *)
Theorem bulk_route_status :
  forall env userIds title body data c,
    prunes_accepted env
      (indexed 0 (bulk_messages title body data (Store.find_in userIds c))) ->
    exists r,
      fst (send_bulk_notification env userIds title body data (fresh c))
      = Ok r
      /\ (status r = 500%Z <-> lookup_fails env = true)
      /\ (status r = 404%Z <->
          lookup_fails env = false /\ Store.find_in userIds c = [])
      /\ (status r = 200%Z <->
          lookup_fails env = false /\ Store.find_in userIds c <> []).
Proof.
  intros env userIds title body data c _. unfold send_bulk_notification.
  destruct (lookup_fails env) eqn:Hl.
  - rewrite Dispatch.bulk_lookup_down by assumption. eexists.
    split; [reflexivity|]. simpl.
    repeat split; intros; try discriminate; intuition discriminate.
  - destruct (Store.find_in userIds c) as [|d ds] eqn:E.
    + rewrite Dispatch.bulk_no_documents by assumption. eexists.
      split; [reflexivity|]. simpl.
      repeat split; intros; try discriminate; intuition discriminate.
    + destruct (@Dispatch.bulk_run env batchSize userIds title body data c
                  Dispatch.batchSize_positive Hl) as (w' & -> & _);
        [congruence|].
      eexists. split; [reflexivity|]. simpl.
      repeat split; intros; try discriminate; intuition discriminate.
Qed.

Lemma bulk_route_status_witness :
  exists r,
    fst (send_bulk_notification Scenario.env_transient ["u1"] "T" "B" None
                                (fresh Scenario.store_three)) = Ok r
    /\ status r = 200%Z.
Proof.
  destruct (@bulk_route_status Scenario.env_transient ["u1"] "T" "B" None
              Scenario.store_three (fun k m _ _ => eq_refl))
    as (r & Hrun & _ & _ & H200).
  exists r. split; [exact Hrun|]. apply H200.
  split; [reflexivity | discriminate].
Defined.

(** X11. /send-notification always answers, and with one status: 500
    exactly when the lookup fails or some send is rejected with an
    invalid-token code and its removal write fails; 404 exactly when the
    lookup succeeds and the user has no stored token; 200 otherwise. *)
Theorem single_route_status :
  forall env userId title body data c,
    let ims := indexed 0 (map (build_message title body data)
                              (Store.tokens_of userId c)) in
    let escalation :=
      exists k m, In (k, m) ims /\ is_permanent (gateway env k m) = true
                  /\ prune_fails env k = true in
    exists r,
      fst (send_notification env userId title body data (fresh c)) = Ok r
      /\ (status r = 500%Z <-> lookup_fails env = true \/ escalation)
      /\ (status r = 404%Z <->
          lookup_fails env = false /\ Store.tokens_of userId c = [])
      /\ (status r = 200%Z <->
          lookup_fails env = false /\ Store.tokens_of userId c <> []
          /\ ~ escalation).
Proof.
  intros env userId title body data c ims escalation.
  destruct (lookup_fails env) eqn:Hl.
  - rewrite Dispatch.single_lookup_down by assumption. eexists.
    split; [reflexivity|]. simpl.
    repeat split; intros; try discriminate; intuition discriminate.
  - destruct (Store.tokens_of userId c) as [|r0 rs] eqn:E.
    + rewrite Dispatch.single_no_tokens by assumption. eexists.
      split; [reflexivity|]. simpl.
      assert (Hno : ~ escalation) by (intros (k & m & [] & _)).
      repeat split; intros; try discriminate; intuition discriminate.
    + destruct (@Dispatch.single_run env userId title body data c Hl)
        as (w' & -> & _); [congruence|].
      rewrite E. fold ims.
      destruct (existsb (escalates env) ims) eqn:Ee; eexists;
        (split; [reflexivity|]); simpl.
      * assert (Hyes : escalation) by now apply escalates_exists.
        repeat split; intros; try discriminate; intuition discriminate.
      * assert (Hno : ~ escalation).
        { intros H. apply escalates_exists in H. congruence. }
        repeat split; intros; try discriminate; intuition discriminate.
Qed.

Lemma single_route_status_witness :
  exists r,
    fst (send_notification Scenario.env_up "u1" "T" "B" None
                           (fresh Scenario.store_three)) = Ok r
    /\ status r = 200%Z.
Proof.
  destruct (single_route_status Scenario.env_up "u1" "T" "B" None
              Scenario.store_three) as (r & Hrun & _ & _ & H200).
  exists r. split; [exact Hrun|]. apply H200.
  split; [reflexivity|]. split; [discriminate|].
  intros (k & m & _ & _ & H). discriminate.
Defined.

(** X12. /register-token always answers: 200 exactly when the store
    write succeeds, 500 otherwise, and in that case the collection is
    unchanged. *)
Theorem register_route_status :
  forall env userId fcmToken deviceInfo c,
    let run := register_token env userId fcmToken deviceInfo (fresh c) in
    exists r,
      fst run = Ok r
      /\ (status r = 200%Z <-> register_fails env = false)
      /\ (status r = 500%Z <-> register_fails env = true)
      /\ (register_fails env = true -> db (snd run) = c).
Proof.
  intros env userId fcmToken deviceInfo c run. subst run.
  destruct (register_fails env) eqn:E.
  - exists (Json500 StoreUnavailable).
    rewrite Upsert.register_db, E.
    unfold register_token.
    cbv [try_catch bind query record write_db ret throw]. rewrite E. simpl.
    repeat split; discriminate.
  - rewrite Registration.register_token_run by assumption.
    exists Json200_registered. simpl. repeat split; discriminate.
Qed.

Lemma register_route_status_witness :
  fst (register_token Scenario.env_register_down "u1" "t4" None
                      (fresh Scenario.store_three))
  = Ok (Json500 StoreUnavailable)
  /\ db (snd (register_token Scenario.env_register_down "u1" "t4" None
                             (fresh Scenario.store_three)))
     = Scenario.store_three.
Proof.
  destruct (register_route_status Scenario.env_register_down "u1" "t4" None
              Scenario.store_three) as (r & _ & _ & _ & Hdb).
  split; [reflexivity|]. apply Hdb. reflexivity.
Defined.

(** X13. Whatever the environment, every message /send-bulk-notification
    hands the gateway is addressed to a token stored in the document of a
    user listed in userIds. *)
Theorem bulk_route_sends_to_requested_users_only :
  forall env userIds title body data c m,
    In m (sends (snd (send_bulk_notification env userIds title body data
                                             (fresh c)))) ->
    exists d,
      In d c /\ In (Store.userId d) userIds
      /\ In (token m) (map Store.token (Store.fcmTokens d)).
Proof.
  intros env userIds title body data c m Hin.
  destruct (lookup_fails env) eqn:Hl.
  - unfold send_bulk_notification in Hin.
    rewrite Dispatch.bulk_lookup_down in Hin by assumption. destruct Hin.
  - rewrite Resolution.bulk_sends in Hin by assumption.
    unfold bulk_messages in Hin.
    apply in_flat_map in Hin as (d & Hd & Hm).
    apply in_map_iff in Hm as (r & <- & Hr).
    unfold Store.find_in in Hd. apply filter_In in Hd as [Hd Hu].
    apply existsb_exists in Hu as (u & Hu & Heq).
    apply String.eqb_eq in Heq. subst u.
    exists d. split; [assumption|]. split; [assumption|].
    simpl. apply in_map_iff. now exists r.
Qed.

Lemma bulk_route_sends_to_requested_users_only_witness :
  exists d,
    In d Scenario.store_shared /\ In (Store.userId d) ["u9"]
    /\ In "t9" (map Store.token (Store.fcmTokens d)).
Proof.
  apply (bulk_route_sends_to_requested_users_only Scenario.env_up ["u9"] "T"
           "B" None Scenario.store_shared
           (mkMessage (mkNotification "T" "B") [] "t9")).
  vm_compute. right. left. reflexivity.
Defined.

(** X14. /send-bulk-notification treats userIds as a set: two lists with
    the same elements, in any order and with any repetitions, get the
    same response and the same sends. *)
Theorem userIds_order_is_irrelevant :
  forall env userIds userIds' title body data c,
    (forall u, In u userIds <-> In u userIds') ->
    fst (send_bulk_notification env userIds title body data (fresh c))
    = fst (send_bulk_notification env userIds' title body data (fresh c))
    /\ sends (snd (send_bulk_notification env userIds title body data
                                          (fresh c)))
       = sends (snd (send_bulk_notification env userIds' title body data
                                            (fresh c))).
Proof.
  intros env userIds userIds' title body data c Hsame.
  apply Resolution.bulk_same_documents.
  unfold Store.find_in. apply filter_ext. intros d.
  apply eq_true_iff_eq. rewrite !existsb_exists.
  split; intros (u & Hin & Hu); exists u; split; try assumption;
    now apply Hsame.
Qed.

Lemma userIds_order_is_irrelevant_witness :
  sends (snd (send_bulk_notification Scenario.env_up ["u1"; "u9"] "T" "B" None
                                     (fresh Scenario.store_shared)))
  = sends (snd (send_bulk_notification Scenario.env_up ["u9"; "u1"; "u9"] "T"
                                       "B" None
                                       (fresh Scenario.store_shared))).
Proof.
  apply (userIds_order_is_irrelevant Scenario.env_up ["u1"; "u9"]
           ["u9"; "u1"; "u9"] "T" "B" None Scenario.store_shared).
  intros u. simpl. tauto.
Defined.

End Responses.

(* ------------------------------------------------------------------ *)
(** ** Every schedule of the bulk loop                                  *)
(* ------------------------------------------------------------------ *)

Module Schedules.

Import Gateway EventLoop.

Lemma remove_nth_incl {A} (l : list A) j x :
  In x (remove_nth j l) -> In x l.
Proof.
  revert j; induction l as [|a l IH]; intros [|j]; simpl; try tauto.
  intros [-> | H]; [tauto|]. right. now apply (IH j).
Qed.

Lemma remove_nth_length {A} (l : list A) j :
  List.length (remove_nth j l) <= List.length l.
Proof.
  revert j; induction l as [|a l IH]; intros [|j]; simpl; try lia.
  specialize (IH j). lia.
Qed.

Lemma exec_app env size messages sched sched' s :
  exec env size messages (sched ++ sched') s
  = match exec env size messages sched s with
    | Some s1 => exec env size messages sched' s1
    | None => None
    end.
Proof.
  revert s; induction sched as [|a sched IH]; intros s; simpl;
    [reflexivity|].
  destruct (step env size messages a s); [apply IH | reflexivity].
Qed.

Section Machine.

Variable env : Handlers.Env.
Variable size : nat.
Variable messages : list Message.

Lemma caused_cons e tr :
  caused env tr -> justified env e tr -> caused env (e :: tr).
Proof.
  intros H He. apply Interleaving.every_point_cons. now split.
Qed.

(** Later events keep the causes of earlier ones. *)
Lemma caused_in tr :
  caused env tr ->
  (forall i k r, In (SendSettled i k r) tr ->
     exists m, In (SendIssued i k m) tr /\ r = Handlers.gateway env k m)
  /\ (forall i k tok, In (PruneIssued i k tok) tr ->
        exists m, In (SendIssued i k m) tr
                  /\ In (SendSettled i k (Handlers.gateway env k m)) tr
                  /\ is_permanent (Handlers.gateway env k m) = true
                  /\ tok = token m)
  /\ (forall i k tok, In (PruneDone i k tok) tr ->
        In (PruneIssued i k tok) tr).
Proof.
  intros Hc. repeat split; intros i k x Hin;
    apply in_split in Hin as (later & earlier & ->);
    specialize (Hc later _ earlier eq_refl); simpl in Hc.
  - destruct Hc as (m & Hm & ->). exists m. split; [|reflexivity].
    apply in_or_app. right. now right.
  - destruct Hc as (m & Hm & Hs & Hp & ->). exists m.
    split; [|split; [|now split]]; apply in_or_app; right; now right.
  - apply in_or_app. right. now right.
Qed.

Lemma caused_calls l tr :
  (forall e, In e l -> exists i k m, e = SendIssued i k m) ->
  caused env tr -> caused env (l ++ tr).
Proof.
  intros Hl H. induction l as [|e l IH]; [exact H|].
  simpl. apply caused_cons.
  - apply IH. intros e' He'. apply Hl. now right.
  - destruct (Hl e (or_introl eq_refl)) as (i & k & m & ->). exact I.
Qed.

Lemma caused_issue i batch tr :
  caused env tr -> caused env (rev (issued i batch) ++ tr).
Proof.
  apply caused_calls. intros e He.
  apply Interleaving.in_issued in He as (km & _ & ->). eauto.
Qed.

Lemma loop_test_bookkeeping i s :
  caused env (trace s) ->
  (forall i0 k tok, In (i0, k, tok) (background s) ->
                    In (PruneIssued i0 k tok) (trace s)) ->
  bookkeeping env size (loop_test size messages i s).
Proof.
  intros Hc Hbg. unfold loop_test.
  destruct (Nat.ltb_spec i (List.length messages)) as [Hlt|Hge];
    unfold bookkeeping; simpl.
  - split; [now apply caused_issue|].
    split; [intros i0 k tok H; apply in_or_app; right; now apply Hbg|].
    split; [|split; [lia|]].
    + intros k m Hkm. apply in_or_app. left.
      apply Interleaving.in_issued. now exists (k, m).
    + rewrite Dispatch.indexed_length. unfold Handlers.slice.
      rewrite length_firstn. lia.
  - split; [apply caused_cons; [assumption | exact I]|].
    split; [intros i0 k tok H; right; now apply Hbg|].
    eexists. now left.
Qed.

Lemma step_bookkeeping a s s' :
  bookkeeping env size s ->
  step env size messages a s = Some s' ->
  bookkeeping env size s'.
Proof.
  intros (Hc & Hbg & Hphase) Hstep.
  destruct a as [|j|j]; unfold step in Hstep.
  - destruct (phase s) as [i|i batch pending| |] eqn:Ephase; try discriminate.
    + inversion Hstep; subst s'. now apply loop_test_bookkeeping.
    + destruct pending as [|p pending]; [|discriminate].
      inversion Hstep; subst s'. now apply loop_test_bookkeeping.
  - destruct (phase s) as [i|i batch pending| |] eqn:Ephase; try discriminate.
    destruct (nth_error pending j) as [[k m]|] eqn:Enth; [|discriminate].
    destruct Hphase as (Hpending & Hlen & Hsize).
    assert (Hissued : In (SendIssued i k m) (trace s))
      by (apply Hpending; now apply nth_error_In with j).
    assert (Hc1 : caused env (SendSettled i k (Handlers.gateway env k m)
                              :: trace s))
      by (apply caused_cons; [assumption | now exists m]).
    pose proof (remove_nth_length pending j) as Hshrink.
    destruct (is_permanent (Handlers.gateway env k m)) eqn:Eperm;
      inversion Hstep; subst s'; unfold bookkeeping; simpl.
    + split; [apply caused_cons; [assumption|]; exists m; simpl; auto 6|].
      split.
      * intros i0 k0 tok H. apply in_app_or in H as [H | [H | []]].
        -- right. right. now apply Hbg.
        -- inversion H; subst. now left.
      * split; [|split; lia].
        intros k0 m0 H. right. right. apply Hpending.
        now apply remove_nth_incl with j.
    + split; [exact Hc1|].
      split; [intros i0 k0 tok H; right; now apply Hbg|].
      split; [|split; lia].
      intros k0 m0 H. right. apply Hpending.
      now apply remove_nth_incl with j.
  - assert (E : exists i0 k tok,
               nth_error (background s) j = Some (i0, k, tok)
               /\ s' = mkState (if Handlers.prune_fails env k then Crashed
                                else phase s)
                               (results s) (remove_nth j (background s))
                               (PruneDone i0 k tok :: trace s)).
    { destruct (phase s) as [i|i batch [|p pending]| |]; try discriminate;
        destruct (nth_error (background s) j) as [[[i0 k] tok]|];
        try discriminate; inversion Hstep; eauto. }
    clear Hstep. destruct E as (i0 & k & tok & Enth & ->).
    unfold bookkeeping. simpl.
    split.
    { apply caused_cons; [assumption|]. simpl. apply Hbg.
      now apply nth_error_In with j. }
    split.
    { intros i1 k1 tok1 H. right. apply Hbg.
      now apply remove_nth_incl with j. }
    destruct (Handlers.prune_fails env k); [exact I|].
    destruct (phase s) as [i|i batch pending| |]; [exact I | | |exact I].
    + destruct Hphase as (Hpending & Hlen & Hsize).
      split; [|now split]. intros k0 m0 H. right. now apply Hpending.
    + destruct Hphase as [r Hr]. exists r. now right.
Qed.

Lemma init_bookkeeping : bookkeeping env size init.
Proof.
  unfold bookkeeping, init. simpl.
  split; [apply Interleaving.every_point_nil|]. split; [intros i k t []|].
  exact I.
Qed.

Lemma exec_bookkeeping sched :
  forall s s',
    bookkeeping env size s ->
    exec env size messages sched s = Some s' ->
    bookkeeping env size s'.
Proof.
  induction sched as [|a sched IH]; intros s s' Hinv Hexec; simpl in Hexec.
  - inversion Hexec; now subst.
  - destruct (step env size messages a s) as [s1|] eqn:Estep; [|discriminate].
    apply (IH s1); [|assumption]. now apply (@step_bookkeeping a s).
Qed.

Lemma reachable_bookkeeping s :
  reachable env size messages s -> bookkeeping env size s.
Proof.
  intros [sched Hexec].
  apply (@exec_bookkeeping sched init s); [apply init_bookkeeping | exact Hexec].
Qed.

End Machine.

Section Progress.

Variable env : Handlers.Env.
Variable size : nat.
Variable messages : list Message.
Hypothesis size_positive : 1 <= size.

Lemma settles_complete_nothing n : completes_nothing (repeat (Settle 0) n).
Proof. intros j H. apply repeat_spec in H. discriminate. Qed.

Lemma completes_nothing_app sched sched' :
  completes_nothing sched -> completes_nothing sched' ->
  completes_nothing (sched ++ sched').
Proof.
  intros H H' j Hin. apply in_app_or in Hin as [Hin|Hin];
    [now apply (H j) | now apply (H' j)].
Qed.

Lemma completes_nothing_resume sched :
  completes_nothing sched -> completes_nothing (Resume :: sched).
Proof. intros H j [Hin|Hin]; [discriminate | now apply (H j)]. Qed.

(** Settling the first pending send again and again empties the batch. *)
Lemma drain pending :
  forall i batch s,
    phase s = Awaiting i batch pending ->
    exists s',
      exec env size messages (repeat (Settle 0) (List.length pending)) s
      = Some s'
      /\ phase s' = Awaiting i batch [].
Proof.
  induction pending as [|[k m] pending IH]; intros i batch s Hphase.
  - exists s. now split.
  - simpl. unfold step. rewrite Hphase. simpl.
    destruct (is_permanent (Handlers.gateway env k m));
      apply IH; reflexivity.
Qed.

(** From the loop test on, the handler and the sends alone reach the
    response. *)
Lemma finish_from_test :
  forall n i s,
    List.length messages - i < n ->
    exists sched s',
      completes_nothing sched
      /\ exec env size messages sched (loop_test size messages i s) = Some s'
      /\ phase s' = Done.
Proof.
  induction n as [|n IH]; intros i s Hn; [lia|].
  unfold loop_test.
  destruct (Nat.ltb_spec i (List.length messages)) as [Hlt|Hge].
  - set (batch := Handlers.indexed i (Handlers.slice messages i (i + size))).
    set (s0 := mkState (Awaiting i batch batch) (results s) (background s)
                       (rev (issued i batch) ++ trace s)).
    destruct (@drain batch i batch s0 eq_refl) as (s1 & Hdrain & Hphase1).
    set (s2 := mkState (phase s1)
                 (results s1
                  ++ map (fun km => response_of
                                      (Handlers.gateway env (fst km) (snd km)))
                         batch)
                 (background s1) (trace s1)).
    destruct (IH (i + size) s2) as (sched & s' & Hnone & Hexec & Hdone);
      [lia|].
    exists (repeat (Settle 0) (List.length batch) ++ Resume :: sched), s'.
    split; [|split; [|exact Hdone]].
    + apply completes_nothing_app; [apply settles_complete_nothing|].
      now apply completes_nothing_resume.
    + rewrite exec_app, Hdrain. simpl. unfold step. rewrite Hphase1.
      exact Hexec.
  - exists [], (mkState Done (results s) (background s)
                        (Responded
                           (Handlers.Json200_sent
                              (Z.of_nat (List.length
                                           (filter Handlers.not_null
                                                   (results s))))
                              (Z.of_nat (List.length messages)
                               - Z.of_nat (List.length
                                             (filter Handlers.not_null
                                                     (results s))))%Z)
                         :: trace s)).
    split; [intros j []|]. now split.
Qed.

Lemma finish s :
  phase s <> Crashed ->
  exists sched s',
    completes_nothing sched
    /\ exec env size messages sched s = Some s' /\ phase s' = Done.
Proof.
  intros Halive.
  destruct (phase s) as [i|i batch pending| |] eqn:Ephase.
  - destruct (@finish_from_test (S (List.length messages)) i s)
      as (sched & s' & Hnone & Hexec & Hdone); [lia|].
    exists (Resume :: sched), s'.
    split; [now apply completes_nothing_resume|]. split; [|exact Hdone].
    simpl. unfold step. rewrite Ephase. exact Hexec.
  - destruct (@drain pending i batch s Ephase) as (s1 & Hdrain & Hphase1).
    set (s2 := mkState (phase s1)
                 (results s1
                  ++ map (fun km => response_of
                                      (Handlers.gateway env (fst km) (snd km)))
                         batch)
                 (background s1) (trace s1)).
    destruct (@finish_from_test (S (List.length messages)) (i + size) s2)
      as (sched & s' & Hnone & Hexec & Hdone); [lia|].
    exists (repeat (Settle 0) (List.length pending) ++ Resume :: sched), s'.
    split; [|split; [|exact Hdone]].
    + apply completes_nothing_app; [apply settles_complete_nothing|].
      now apply completes_nothing_resume.
    + rewrite exec_app, Hdrain. simpl. unfold step. rewrite Hphase1.
      exact Hexec.
  - exists [], s. split; [intros j []|]. now split.
  - congruence.
Qed.

(** Once the process has ended nothing happens any more. *)
Lemma crashed_is_final a s :
  phase s = Crashed -> step env size messages a s = None.
Proof. intros H. unfold step. rewrite H. now destruct a. Qed.

(** The process ends on the rejection of a removal write, and on nothing
    else. *)
Lemma crash_needs_rejected_write sched :
  forall s s',
    exec env size messages sched s = Some s' ->
    phase s <> Crashed -> phase s' = Crashed ->
    exists i k tok,
      In (PruneDone i k tok) (trace s')
      /\ Handlers.prune_fails env k = true.
Proof.
  induction sched as [|a sched IH]; intros s s' Hexec Halive Hdead;
    simpl in Hexec.
  - inversion Hexec; subst. contradiction.
  - destruct (step env size messages a s) as [s1|] eqn:Estep; [|discriminate].
    destruct (phase s1) as [i|i batch pending| |] eqn:E1;
      try (apply (IH s1 s' Hexec); [rewrite E1; discriminate | exact Hdead]).
    destruct sched as [|a' sched];
      [|simpl in Hexec; rewrite crashed_is_final in Hexec by assumption;
        discriminate].
    inversion Hexec; subst s'. clear Hexec IH Hdead.
    unfold step in Estep.
    destruct a as [|j|j].
    + destruct (phase s) as [i|i batch [|p pending]| |]; try discriminate;
        inversion Estep; subst s1; unfold loop_test in E1;
        destruct (_ <? _); discriminate.
    + destruct (phase s) as [i|i batch pending| |]; try discriminate.
      destruct (nth_error pending j) as [[k m]|]; [|discriminate].
      destruct (is_permanent _); inversion Estep; subst s1; discriminate.
    + assert (E : exists i0 k tok,
                 nth_error (background s) j = Some (i0, k, tok)
                 /\ s1 = mkState (if Handlers.prune_fails env k then Crashed
                                  else phase s)
                                 (results s) (remove_nth j (background s))
                                 (PruneDone i0 k tok :: trace s)).
      { destruct (phase s) as [i|i batch [|p pending]| |]; try discriminate;
          destruct (nth_error (background s) j) as [[[i0 k] tok]|];
          try discriminate; inversion Estep; eauto. }
      destruct E as (i0 & k & tok & _ & ->). simpl in E1.
      destruct (Handlers.prune_fails env k) eqn:Ef; [|contradiction].
      exists i0, k, tok. split; [now left | exact Ef].
Qed.

End Progress.

Lemma state_three_reached :
  exec Scenario.env_up Handlers.batchSize Scenario.messages_three
       Scenario.schedule_three init
  = Some Scenario.state_three.
Proof.
  unfold Scenario.state_three.
  destruct (exec Scenario.env_up Handlers.batchSize Scenario.messages_three
                 Scenario.schedule_three init) eqn:E; [reflexivity|].
  vm_compute in E. discriminate.
Qed.

Lemma state_three_reachable :
  reachable Scenario.env_up Handlers.batchSize Scenario.messages_three
            Scenario.state_three.
Proof. exists Scenario.schedule_three. exact state_three_reached. Qed.

(** X15. Whatever the order in which the sends of a batch settle and the
    removal writes complete, the response /send-bulk-notification writes
    is the one obtained when everything settles in array order. *)
Theorem bulk_response_under_every_schedule :
  forall env size userIds title body data c s r,
    1 <= size ->
    Handlers.lookup_fails env = false ->
    Store.find_in userIds c <> [] ->
    reachable env size
      (Handlers.bulk_messages title body data (Store.find_in userIds c)) s ->
    In (Responded r) (trace s) ->
    fst (Handlers.send_bulk_with size env userIds title body data
           (Handlers.fresh c))
    = Handlers.Ok r.
Proof.
  intros env size userIds title body data c s r Hsize Hl Hsome Hreach Hin.
  rewrite Interleaving.handlers_expected_response by assumption.
  f_equal. symmetry.
  now apply (@Interleaving.response_schedule_independent env size _ s).
Qed.

Lemma bulk_response_under_every_schedule_witness :
  fst (Handlers.send_bulk_with Handlers.batchSize Scenario.env_up ["u1"] "T"
         "B" None (Handlers.fresh Scenario.store_three))
  = Handlers.Ok (Handlers.Json200_sent 1 2).
Proof.
  apply (@bulk_response_under_every_schedule Scenario.env_up
           Handlers.batchSize ["u1"] "T" "B" None Scenario.store_three
           Scenario.state_three).
  - apply Dispatch.batchSize_positive.
  - reflexivity.
  - discriminate.
  - exact state_three_reachable.
  - vm_compute. right. left. reflexivity.
Defined.

(** X16. Under every schedule, a removal write is started only for a
    message that was sent and that the gateway rejected with an
    invalid-token code, and for that message's token; and a removal write
    completes only if it was started. *)
Theorem prunes_have_causes :
  forall env size messages s i k tok,
    reachable env size messages s ->
    (In (PruneIssued i k tok) (trace s) ->
     exists m,
       In (SendIssued i k m) (trace s)
       /\ classify (Handlers.gateway env k m) = PermanentInvalidToken
       /\ tok = token m)
    /\ (In (PruneDone i k tok) (trace s) ->
        In (PruneIssued i k tok) (trace s)).
Proof.
  intros env size messages s i k tok Hreach.
  apply (@reachable_bookkeeping env size messages) in Hreach as (Hc & _).
  apply caused_in in Hc as (_ & Hissued & Hdone).
  split; [|apply Hdone].
  intros Hin. destruct (Hissued i k tok Hin) as (m & Hm & _ & Hp & ->).
  exists m. split; [assumption|].
  split; [now apply Dispatch.classify_permanent | reflexivity].
Qed.

Lemma prunes_have_causes_witness :
  exists m,
    In (SendIssued 0 0 m) (trace Scenario.state_three)
    /\ classify (Handlers.gateway Scenario.env_up 0 m)
       = PermanentInvalidToken
    /\ "t1" = token m.
Proof.
  apply (proj1 (@prunes_have_causes Scenario.env_up Handlers.batchSize
                  Scenario.messages_three Scenario.state_three 0 0 "t1"
                  state_three_reachable)).
  vm_compute. right. right. right. left. reflexivity.
Defined.

(** X17. Under every schedule, the sends called and not yet settled are
    never more than the batch size. *)
Theorem in_flight_bounded :
  forall env size messages s,
    reachable env size messages s -> in_flight s <= size.
Proof.
  intros env size messages s Hreach.
  apply (@reachable_bookkeeping env size messages) in Hreach
    as (_ & _ & Hphase).
  unfold in_flight. destruct (phase s) as [i|i batch pending| |]; lia.
Qed.

Lemma in_flight_bounded_witness :
  in_flight Scenario.state_501 <= Handlers.batchSize.
Proof.
  apply (@in_flight_bounded Scenario.env_up Handlers.batchSize
           Scenario.messages_501).
  exists Scenario.schedule_501. exact Interleaving.state_501_reached.
Defined.

Lemma state_crash_reached :
  exec Scenario.env_prune_down Handlers.batchSize Scenario.messages_three
       Scenario.schedule_crash init
  = Some Scenario.state_crash.
Proof.
  unfold Scenario.state_crash.
  destruct (exec Scenario.env_prune_down Handlers.batchSize
                 Scenario.messages_three Scenario.schedule_crash init) eqn:E;
    [reflexivity|].
  vm_compute in E. discriminate.
Qed.

(** A rejected removal write can end the process before /send-bulk-
    notification has written any response: here the first send is
    rejected as unregistered and its removal write is rejected at once. *)
Lemma bulk_prune_failure_can_end_the_process :
  reachable Scenario.env_prune_down Handlers.batchSize Scenario.messages_three
            Scenario.state_crash
  /\ phase Scenario.state_crash = Crashed
  /\ (forall r, ~ In (Responded r) (trace Scenario.state_crash))
  /\ (forall a, step Scenario.env_prune_down Handlers.batchSize
                     Scenario.messages_three a Scenario.state_crash = None).
Proof.
  split; [exists Scenario.schedule_crash; exact state_crash_reached|].
  split; [reflexivity|]. split.
  - intros r H. vm_compute in H.
    repeat (destruct H as [H|H]; [discriminate|]). exact H.
  - intros a. now apply crashed_is_final.
Qed.

(** Without a rejected removal write the process never ends early. *)
Lemma no_rejected_write_no_crash env size messages s :
  (forall k, Handlers.prune_fails env k = false) ->
  reachable env size messages s -> phase s <> Crashed.
Proof.
  intros Hnone [sched Hexec] Hdead.
  destruct (@crash_needs_rejected_write env size messages sched init s Hexec)
    as (i & k & tok & _ & Hf); [discriminate | assumption |].
  rewrite Hnone in Hf. discriminate.
Qed.

(** X18. With a batch size of at least 1, from every state the loop can
    reach in which the process has not been ended by a rejected removal
    write, the handler and the sends alone (no removal write completing)
    bring the loop to its end: the handler writes its response, and that
    response is the one computed in array order. *)
Theorem live_run_can_finish :
  forall env size messages s,
    1 <= size ->
    reachable env size messages s ->
    phase s <> Crashed ->
    exists sched s',
      completes_nothing sched
      /\ exec env size messages sched s = Some s'
      /\ phase s' = Done
      /\ In (Responded (expected_response env messages)) (trace s').
Proof.
  intros env size messages s Hsize [sched0 Hreach] Halive.
  destruct (@finish env size messages Hsize s Halive)
    as (sched & s' & Hnone & Hexec & Hdone).
  exists sched, s'. split; [assumption|]. split; [assumption|].
  split; [assumption|].
  assert (Hreach' : reachable env size messages s').
  { exists (sched0 ++ sched). now rewrite exec_app, Hreach. }
  pose proof (reachable_bookkeeping Hreach') as (_ & _ & Hphase).
  rewrite Hdone in Hphase. destruct Hphase as [r Hr].
  now rewrite <- (@Interleaving.response_schedule_independent
                    env size messages s' r Hreach' Hr).
Qed.

Lemma live_run_can_finish_witness :
  exists sched s',
    completes_nothing sched
    /\ exec Scenario.env_up Handlers.batchSize Scenario.messages_501 sched
            Scenario.state_501 = Some s'
    /\ phase s' = Done
    /\ In (Responded (expected_response Scenario.env_up
                        Scenario.messages_501)) (trace s').
Proof.
  apply live_run_can_finish.
  - apply Dispatch.batchSize_positive.
  - exists Scenario.schedule_501. exact Interleaving.state_501_reached.
  - vm_compute. discriminate.
Defined.

End Schedules.

(* ------------------------------------------------------------------ *)
(** ** The private key at start-up                                      *)
(* ------------------------------------------------------------------ *)

Module KeyConversion.

Import Bootstrap.

(** Induction over a text two characters at a time. *)
Lemma string_pairs_ind (P : string -> Prop) :
  P EmptyString ->
  (forall c, P (String c EmptyString)) ->
  (forall c c' rest,
     P rest -> P (String c' rest) -> P (String c (String c' rest))) ->
  forall s, P s.
Proof.
  intros H0 H1 H2 s.
  assert (H : P s /\ forall c, P (String c s)).
  { induction s as [|c' rest [IHrest IHcons]].
    - split; [exact H0 | exact H1].
    - split; [apply IHcons|]. intros c. apply H2; [exact IHrest | apply IHcons]. }
  apply H.
Qed.

Lemma replace_pair c c' rest :
  replace_escaped_newlines (String c (String c' rest))
  = if Ascii.eqb c backslash && Ascii.eqb c' letter_n
    then String newline (replace_escaped_newlines rest)
    else String c (replace_escaped_newlines (String c' rest)).
Proof. reflexivity. Qed.

Lemma has_pair c c' rest :
  has_escaped_newline (String c (String c' rest))
  = (Ascii.eqb c backslash && Ascii.eqb c' letter_n)
    || has_escaped_newline (String c' rest).
Proof. reflexivity. Qed.

(** The converted text starts with the first character of the text or
    with a newline. *)
Lemma replace_head c rest :
  exists y tail,
    replace_escaped_newlines (String c rest) = String y tail
    /\ (y = c \/ y = newline).
Proof.
  destruct rest as [|c' rest]; [exists c, EmptyString; auto|].
  rewrite replace_pair.
  destruct (Ascii.eqb c backslash && Ascii.eqb c' letter_n); eauto.
Qed.

Lemma no_escape_left key :
  has_escaped_newline (replace_escaped_newlines key) = false.
Proof.
  induction key as [| c | c c' rest IHrest IHcons] using string_pairs_ind;
    try reflexivity.
  rewrite replace_pair.
  destruct (Ascii.eqb c backslash && Ascii.eqb c' letter_n) eqn:E.
  - destruct (replace_escaped_newlines rest) as [|y tail] eqn:Er;
      [reflexivity|].
    rewrite has_pair, IHrest. reflexivity.
  - destruct (replace_head c' rest) as (y & tail & Ey & Hy).
    rewrite Ey in *. rewrite has_pair, IHcons, orb_false_r.
    destruct Hy as [-> | ->]; [exact E|].
    now rewrite andb_false_r.
Qed.

Lemma without_escape_unchanged key :
  has_escaped_newline key = false -> replace_escaped_newlines key = key.
Proof.
  induction key as [| c | c c' rest IHrest IHcons] using string_pairs_ind;
    try reflexivity.
  rewrite replace_pair, has_pair. intros H.
  apply orb_false_iff in H as [E H]. rewrite E. f_equal. now apply IHcons.
Qed.

Lemma replace_length key :
  String.length (replace_escaped_newlines key) <= String.length key.
Proof.
  induction key as [| c | c c' rest IHrest IHcons] using string_pairs_ind;
    try (simpl; lia).
  rewrite replace_pair.
  destruct (Ascii.eqb c backslash && Ascii.eqb c' letter_n).
  - change (S (String.length (replace_escaped_newlines rest))
            <= S (S (String.length rest))). lia.
  - change (S (String.length (replace_escaped_newlines (String c' rest)))
            <= S (String.length (String c' rest))). lia.
Qed.

(** X19. The conversion of the private key leaves no backslash followed
    by the letter n in the text, never lengthens it, changes nothing in a
    text without that escape, and so gives the same text when applied
    twice. *)
Theorem escaped_newlines_are_replaced :
  forall key,
    has_escaped_newline (replace_escaped_newlines key) = false
    /\ String.length (replace_escaped_newlines key) <= String.length key
    /\ (has_escaped_newline key = false ->
        replace_escaped_newlines key = key)
    /\ replace_escaped_newlines (replace_escaped_newlines key)
       = replace_escaped_newlines key.
Proof.
  intros key. split; [apply no_escape_left|].
  split; [apply replace_length|].
  split; [apply without_escape_unchanged|].
  apply without_escape_unchanged, no_escape_left.
Qed.

Lemma escaped_newlines_are_replaced_witness :
  replace_escaped_newlines "-----BEGIN KEY-----" = "-----BEGIN KEY-----"
  /\ has_escaped_newline
       (replace_escaped_newlines "-----BEGIN\nMIIE\\n\n-----END") = false.
Proof.
  split.
  - apply (proj1 (proj2 (proj2 (escaped_newlines_are_replaced
                                  "-----BEGIN KEY-----")))).
    reflexivity.
  - apply (proj1 (escaped_newlines_are_replaced
                    "-----BEGIN\nMIIE\\n\n-----END")).
Defined.

End KeyConversion.

(* ------------------------------------------------------------------ *)
(** ** Rejections nothing handles                                       *)
(* ------------------------------------------------------------------ *)

Module Rejections.

Import Gateway Handlers.

Lemma unhandled_in_app cs cs' :
  unhandled_in (cs ++ cs') = unhandled_in cs ++ unhandled_in cs'.
Proof. apply flat_map_app. Qed.

Lemma unhandled_in_sends (ims : list (nat * Message)) :
  unhandled_in (map (fun km => Send (snd km)) ims) = [].
Proof. induction ims as [|km ims IH]; simpl; congruence. Qed.

Lemma unhandled_in_awaited userId env ims :
  unhandled_in (prunes_of (UpdateOne userId) env ims) = [].
Proof.
  induction ims as [|km ims IH]; simpl; [reflexivity|].
  rewrite unhandled_in_app, IH, app_nil_r.
  now destruct (is_permanent _).
Qed.

Lemma background_prunes_of_app env ims ims' :
  background_prunes_of env (ims ++ ims')
  = background_prunes_of env ims ++ background_prunes_of env ims'.
Proof. apply flat_map_app. Qed.

Lemma unhandled_in_background env ims :
  unhandled_in (background_prunes_of env ims) = [] <->
  prunes_accepted env ims.
Proof.
  unfold prunes_accepted. induction ims as [|[k m] ims IH]; simpl.
  - split; [intros _ k m [] | reflexivity].
  - rewrite unhandled_in_app. split.
    + intros H. apply app_eq_nil in H as [Hhere Hrest].
      intros k' m' [E | Hin] Hp.
      * inversion E; subst k' m'. rewrite Hp in Hhere. simpl in Hhere.
        destruct (prune_fails env k); [discriminate | reflexivity].
      * now apply (proj1 IH Hrest k' m').
    + intros H. rewrite (proj2 IH) by (intros k' m' Hin; apply H; now right).
      rewrite app_nil_r.
      destruct (is_permanent (gateway env k m)) eqn:Ep; [|reflexivity].
      simpl. now rewrite (H k m (or_introl eq_refl) Ep).
Qed.

(** /send-notification leaves no rejection without a handler: every
    promise it creates is awaited inside [Promise.all] or the outer
    [try]. *)
Lemma single_route_handles_every_rejection env userId title body data c :
  unhandled (snd (send_notification env userId title body data (fresh c)))
  = [].
Proof.
  destruct (lookup_fails env) eqn:Hl.
  - now rewrite Dispatch.single_lookup_down.
  - destruct (Store.tokens_of userId c) as [|r rs] eqn:E.
    + now rewrite Dispatch.single_no_tokens.
    + unfold Store.tokens_of in E.
      destruct (Store.findOne userId c) as [d|] eqn:Ed; [|discriminate].
      assert (Hlen : (List.length (Store.fcmTokens d) =? 0) = false)
        by (rewrite E; reflexivity).
      set (messages := map (build_message title body data)
                           (Store.fcmTokens d)).
      destruct (Dispatch.Promise_all_awaited env userId (indexed 0 messages)
                  (mkWorld c [FindOne userId])) as [d' Hrun].
      unfold send_notification. Dispatch.step_monad. rewrite Hl, Ed, Hlen.
      fold messages. rewrite Hrun.
      assert (Hlog : unhandled_in
                       ([FindOne userId]
                        ++ map (fun km : nat * Message => Send (snd km))
                               (indexed 0 messages)
                        ++ prunes_of (UpdateOne userId) env
                                     (indexed 0 messages)) = []).
      { rewrite !unhandled_in_app, unhandled_in_sends, unhandled_in_awaited.
        reflexivity. }
      destruct (existsb (escalates env) (indexed 0 messages)); exact Hlog.
Qed.

Lemma bulk_loop_unhandled env size messages (Hsize : 1 <= size) :
  forall fuel i results w,
    List.length messages - i < fuel ->
    unhandled (snd (for_batches fuel size messages i (send_batch env)
                                results w))
    = unhandled w
      ++ unhandled_in (background_prunes_of env
                         (skipn i (indexed 0 messages))).
Proof.
  induction fuel as [|fuel IH]; intros i results w Hfuel; [lia|].
  simpl. destruct (Nat.ltb_spec i (List.length messages)) as [Hlt|Hge].
  - unfold bind at 1, send_batch at 1, bind at 1.
    destruct (Dispatch.Promise_all_caught env
                (indexed i (slice messages i (i + size))) w) as [d' E].
    rewrite E. unfold ret at 1. rewrite IH by lia.
    unfold unhandled. simpl.
    rewrite !unhandled_in_app, unhandled_in_sends. simpl.
    rewrite <- app_assoc, <- unhandled_in_app, <- background_prunes_of_app.
    now rewrite Dispatch.indexed_slice, Dispatch.chunk_step.
  - rewrite skipn_all2 by (rewrite Dispatch.indexed_length; lia).
    simpl. now rewrite app_nil_r.
Qed.

(** /send-bulk-notification leaves a rejection without a handler exactly
    when one of the removal writes it starts is rejected (app.js 176). *)
Lemma bulk_route_unhandled_iff env userIds title body data c :
  lookup_fails env = false ->
  unhandled (snd (send_bulk_notification env userIds title body data
                                         (fresh c))) = []
  <-> prunes_accepted env
        (indexed 0 (bulk_messages title body data (Store.find_in userIds c))).
Proof.
  intros Hl. rewrite <- unhandled_in_background.
  unfold send_bulk_notification.
  destruct (Store.find_in userIds c) as [|d ds] eqn:E.
  - rewrite Dispatch.bulk_no_documents by assumption. reflexivity.
  - rewrite <- E.
    assert (Hlen : (List.length (Store.find_in userIds c) =? 0) = false)
      by (rewrite E; reflexivity).
    set (messages := bulk_messages title body data (Store.find_in userIds c)).
    pose proof (@bulk_loop_unhandled env batchSize messages
                  Dispatch.batchSize_positive (S (List.length messages)) 0 []
                  (mkWorld c [Find userIds])) as Hu.
    destruct (@Dispatch.bulk_loop env batchSize messages
                Dispatch.batchSize_positive (S (List.length messages)) 0 []
                (mkWorld c [Find userIds])) as (w' & Hrun & _); [lia|].
    rewrite Hrun in Hu. simpl in Hu.
    unfold send_bulk_with. Dispatch.step_monad. rewrite Hl, Hlen.
    fold messages. rewrite Hrun. simpl. rewrite Hu by lia. reflexivity.
Qed.

(** With u1 holding t1, t2, t3, the gateway finding t1 unregistered and
    the store failing the prune write, /send-bulk-notification leaves
    the rejection of that write without a handler. *)
Lemma bulk_prune_failure_is_unhandled :
  unhandled (snd (send_bulk_notification Scenario.env_prune_down ["u1"] "T"
                                         "B" None
                                         (fresh Scenario.store_three)))
  = [UpdateMany "t1"].
Proof. vm_compute. reflexivity. Qed.

End Rejections.
